(** * Metablock CRC records, the metablock ring, and the Linux thread pool

    Shallow embedding of
    - [src/serializer/log/metablock/metablock_manager.hpp]
      (the on-disk [crc_metablock_t] record, its CRC, the head cursor and the
      ring recovery of [metablock_manager_t]), and
    - [src/arch/runtime/thread_pool.cc] ([linux_thread_pool_t]: startup and
      shutdown barrier, signal handlers, [shutdown_thread_pool]).

    Machine integers are [Z] with their wrap-around written out. Byte images of
    C structs are [list Byte.byte]. *)

From Stdlib Require Import ZArith List Bool Lia Btauto Strings.Byte Sorting.Permutation.
Import ListNotations.
Open Scope Z_scope.

(* ------------------------------------------------------------------------- *)
(** ** boost::crc_basic / boost::crc_optimal, the bit-serial algorithm *)

Module BoostCrc.

(** [detail::reflector<w>::reflect]: reverse the low [w] bits of [x]. *)
Fixpoint reflect_aux (w : nat) (x acc : Z) : Z :=
  match w with
  | O => acc
  | S w' =>
      reflect_aux w' (Z.shiftr x 1)
        (Z.lor (Z.shiftl acc 1) (if Z.testbit x 0 then 1 else 0))
  end.

Definition reflect (w : nat) (x : Z) : Z := reflect_aux w x 0.

Definition mask32 : Z := Z.ones 32.
Definition high_bit : Z := Z.shiftl 1 31.

Section Params.
(** The template parameters of [crc_optimal<32, TruncPoly, InitRem, FinalXor,
    ReflectIn, ReflectRem>]. *)
Variables (TruncPoly InitRem FinalXor : Z) (ReflectIn ReflectRem : bool).

(** [crc_basic::process_bit]: fold the incoming bit into the top of the
    remainder, shift, and divide by the polynomial when the top bit was set. *)
Definition process_bit (rem : Z) (bit : bool) : Z :=
  let rem1 := Z.lxor rem (if bit then high_bit else 0) in
  let do_poly_div := Z.testbit rem1 31 in
  let rem2 := Z.land (Z.shiftl rem1 1) mask32 in
  if do_poly_div then Z.lxor rem2 TruncPoly else rem2.

(** [crc_basic::process_bits]: the low [n] bits of [b], most significant
    first. *)
Fixpoint process_bits (n : nat) (b : Z) (rem : Z) : Z :=
  match n with
  | O => rem
  | S n' => process_bits n' b (process_bit rem (Z.testbit b (Z.of_nat n')))
  end.

(** [crc_basic::process_byte]. *)
Definition process_byte (rem : Z) (byte : Z) : Z :=
  process_bits 8 (if ReflectIn then reflect 8 byte else byte) rem.

(** [crc_basic::process_bytes]. *)
Definition process_bytes (rem : Z) (bytes : list Z) : Z :=
  fold_left process_byte bytes rem.

(** [crc_basic::checksum]. *)
Definition checksum (rem : Z) : Z :=
  Z.land (Z.lxor (if ReflectRem then reflect 32 rem else rem) FinalXor) mask32.

(** A fresh [crc_computer] fed [bytes], then [checksum()]. *)
Definition crc_optimal (bytes : list Z) : Z :=
  checksum (process_bytes InitRem bytes).

End Params.
End BoostCrc.

(* ------------------------------------------------------------------------- *)
(** ** The standard reflected CRC-32, as the spec states it

    Polynomial [0x04C11DB7], reflected input and output, initial value and
    final XOR [0xFFFFFFFF]: the usual LSB-first loop with the reflected
    polynomial [0xEDB88320]. This is the reference the manager's CRC is
    compared with; it is not part of the source. *)

Module Crc32Spec.

Definition poly_reflected : Z := 0xEDB88320.

Definition step (c : Z) : Z :=
  if Z.testbit c 0 then Z.lxor (Z.shiftr c 1) poly_reflected else Z.shiftr c 1.

Fixpoint steps (k : nat) (c : Z) : Z :=
  match k with
  | O => c
  | S k' => steps k' (step c)
  end.

(** [crc ^= byte; for (k = 0; k < 8; k++) crc = step(crc);] *)
Definition update (c : Z) (byte : Z) : Z := steps 8 (Z.lxor c byte).

Definition crc32 (bytes : list Z) : Z :=
  Z.lxor (fold_left update bytes 0xFFFFFFFF) 0xFFFFFFFF.

(** The same loop fed one message bit at a time, least significant bit
    first; used to relate it to the most-significant-first boost loop. *)
Definition lsb_bit (c : Z) (bit : bool) : Z :=
  step (Z.lxor c (if bit then 1 else 0)).

Fixpoint lsb_bits (n : nat) (x : Z) (c : Z) : Z :=
  match n with
  | O => c
  | S n' => lsb_bits n' (Z.shiftr x 1) (lsb_bit c (Z.testbit x 0))
  end.

End Crc32Spec.

(* ------------------------------------------------------------------------- *)
(** ** The on-disk record [crc_metablock_t] (non-[SERIALIZER_MARKERS] build) *)

Module Metablock.
Import BoostCrc.

(** [metablock_manager_t::poly]: a class constant that [crc()] does not use. *)
Definition poly : Z := 0x1337BEEF.

Definition byte_val (b : Byte.byte) : Z := Z.of_N (Byte.to_N b).

(** [metablock_t] is a template parameter; the record keeps its object
    representation, the [sizeof(metablock)] bytes that [crc()] reads. *)
Record crc_metablock_t := mk_crc_metablock {
  _crc : Z;              (* uint32_t *)
  version : Z;           (* int *)
  metablock : list Byte.byte
}.

(** [crc_metablock_t::crc()]. *)
Definition crc (r : crc_metablock_t) : Z :=
  crc_optimal 0x04C11DB7 0xFFFFFFFF 0xFFFFFFFF true true
    (map byte_val (metablock r)).

(** [crc_metablock_t::set_crc()]. *)
Definition set_crc (r : crc_metablock_t) : crc_metablock_t :=
  {| _crc := crc r; version := version r; metablock := metablock r |}.

(** [crc_metablock_t::check_crc()]. *)
Definition check_crc (r : crc_metablock_t) : bool :=
  Z.eqb (_crc r) (crc r).

End Metablock.

(* ------------------------------------------------------------------------- *)
(** ** Object representation of [crc_metablock_t]

    Non-[SERIALIZER_MARKERS] build on the LP64 little-endian ABI the code is
    built for: [uint32_t _crc] at offset 0, [int version] at offset 4
    ([sizeof(int) = 4]), then [metablock_t metablock] at offset 8 (no padding:
    [8] is a multiple of every scalar alignment). *)

Module Layout.
Import Metablock.

Definition sizeof_uint32_t : nat := 4.
Definition sizeof_int : nat := 4.
Definition offsetof_version : nat := sizeof_uint32_t.
Definition INT_MIN : Z := - 2 ^ 31.
Definition INT_MAX : Z := 2 ^ 31 - 1.

Definition byte_of_Z (z : Z) : Byte.byte :=
  match Byte.of_N (Z.to_N (z mod 256)) with
  | Some b => b
  | None => Byte.x00
  end.

(** The [n] little-endian bytes of [v] (two's complement, modulo [2^(8n)]). *)
Fixpoint le_bytes (n : nat) (v : Z) : list Byte.byte :=
  match n with
  | O => []
  | S n' => byte_of_Z v :: le_bytes n' (Z.shiftr v 8)
  end.

(** Unsigned little-endian value of a byte string. *)
Fixpoint le_value (bs : list Byte.byte) : Z :=
  match bs with
  | [] => 0
  | b :: bs' => byte_val b + 256 * le_value bs'
  end.

(** Reading a 32-bit two's-complement [int] from its unsigned image. *)
Definition int_of_u32 (u : Z) : Z := if u <? 2 ^ 31 then u else u - 2 ^ 32.

(** The bytes written to disk for one record: [_crc] at offset 0 and
    [version] at offset 4 (the build without [SERIALIZER_MARKERS]), then the
    payload. Alignment padding before [metablock] and trailing padding up to
    [sizeof(crc_metablock_t)] are not represented: only the first 8 bytes,
    which padding does not move, are read back below. *)
Definition encode_record (r : crc_metablock_t) : list Byte.byte :=
  le_bytes sizeof_uint32_t (_crc r) ++ le_bytes sizeof_int (version r) ++ metablock r.

(** Reading the [version] member back from a record's bytes. *)
Definition decode_version (bs : list Byte.byte) : Z :=
  int_of_u32 (le_value (firstn sizeof_int (skipn offsetof_version bs))).

(** [++] on an [int], as the compiled code performs it (two's-complement
    wrap at [INT_MAX]). *)
Definition int_incr (v : Z) : Z := ((v + 1 - INT_MIN) mod 2 ^ 32) + INT_MIN.

End Layout.

(* ------------------------------------------------------------------------- *)
(** ** The head cursor [metablock_manager_t::head_t]

    [MB_NEXTENTS] and [MB_EXTENT_SEPERATION] are the header's macros. The
    bodies of [head_t()], [operator++], [offset()], [push()] and [pop()] live
    in [metablock_manager.tcc], which is not part of the sources at hand. *)

Module Head.

Definition MB_NEXTENTS : Z := 2.
Definition MB_EXTENT_SEPERATION : Z := 4.

Record head_t := mk_head {
  mb_slot : Z;          (* uint32_t *)
  extent : Z;           (* uint32_t *)
  saved_mb_slot : Z;
  saved_extent : Z;
  wraparound : bool
}.

Section Geometry.
(** [static_header_size], [sizeof(crc_metablock_t)] and the extent size. *)
Variables (static_header_size sizeof_crc_metablock extent_size : Z).

Definition slots_per_extent : Z := extent_size / sizeof_crc_metablock.

(** Modelled from the spec: [head_t::head_t()] (metablock_manager.tcc):
    slot 0 of extent 0, [wraparound = false]. *)
Definition head_init : head_t :=
  {| mb_slot := 0; extent := 0; saved_mb_slot := 0; saved_extent := 0;
     wraparound := false |}.

(** Modelled from the spec: [head_t::operator++] (metablock_manager.tcc):
    next slot; [extent++] when the slot reaches [slots_per_extent]; [extent]
    wraps modulo [MB_NEXTENTS]; [wraparound] is set when the cursor comes back
    to slot 0 of extent 0. *)
Definition head_incr (h : head_t) : head_t :=
  let s := mb_slot h + 1 in
  if s =? slots_per_extent then
    let e := (extent h + 1) mod MB_NEXTENTS in
    {| mb_slot := 0; extent := e; saved_mb_slot := saved_mb_slot h;
       saved_extent := saved_extent h; wraparound := wraparound h || (e =? 0) |}
  else
    {| mb_slot := s; extent := extent h; saved_mb_slot := saved_mb_slot h;
       saved_extent := saved_extent h; wraparound := wraparound h |}.

(** Modelled from the spec: [head_t::offset()] (metablock_manager.tcc). *)
Definition offset (h : head_t) : Z :=
  static_header_size + (extent h * MB_EXTENT_SEPERATION) * extent_size
  + mb_slot h * sizeof_crc_metablock.

(** Modelled from the spec: [head_t::push()] / [head_t::pop()], a saved
    position of depth one. *)
Definition push (h : head_t) : head_t :=
  {| mb_slot := mb_slot h; extent := extent h; saved_mb_slot := mb_slot h;
     saved_extent := extent h; wraparound := wraparound h |}.

Definition pop (h : head_t) : head_t :=
  {| mb_slot := saved_mb_slot h; extent := saved_extent h;
     saved_mb_slot := saved_mb_slot h; saved_extent := saved_extent h;
     wraparound := wraparound h |}.

(** The cursor after [n] increments from [head_t()]. *)
Definition head_after (n : nat) : head_t := Nat.iter n head_incr head_init.

(** Position of the cursor in ring order. *)
Definition ring_index (h : head_t) : Z := extent h * slots_per_extent + mb_slot h.

End Geometry.
End Head.

(* ------------------------------------------------------------------------- *)
(** ** The metablock ring: [write_metablock] and the recovery scan of [start]

    The disk region is the list of the ring's slots in ring order, slot
    [extent * slots_per_extent + mb_slot] being the one at [head.offset()].
    [write_metablock] and [start] are defined in metablock_manager.tcc, which
    is not part of the sources at hand; they are modelled from the spec. The
    record type, its CRC and the [int version] counter come from the header. *)

Module Ring.
Import Metablock Layout Head.

Fixpoint set_nth {A : Type} (l : list A) (i : nat) (x : A) : list A :=
  match l, i with
  | [], _ => []
  | _ :: l', O => x :: l'
  | y :: l', S i' => y :: set_nth l' i' x
  end.

Record mgr := mk_mgr {
  disk : list crc_metablock_t;
  head : head_t;
  mversion : Z             (* metablock_manager_t::version, an int *)
}.

(** Modelled from the spec: one step of the recovery scan. A slot replaces the
    candidate when its CRC matches and its version is strictly larger than the
    best one seen. *)
Definition better (best : option (nat * crc_metablock_t)) (r : crc_metablock_t) : bool :=
  check_crc r &&
  match best with
  | None => true
  | Some (_, b) => version b <? version r
  end.

Fixpoint scan (slots : list crc_metablock_t) (i : nat)
    (best : option (nat * crc_metablock_t)) : option (nat * crc_metablock_t) :=
  match slots with
  | [] => best
  | r :: rest => scan rest (S i) (if better best r then Some (i, r) else best)
  end.

(** Modelled from the spec: the recovery scan of [start]. One pass over the
    ring; if a candidate was found, the head wraps around and the scan goes on
    until it reaches the saved candidate again. [None] is [*mb_found = false];
    [Some (i, r)] is [*mb_found = true] with [*mb_out = r.metablock], found in
    slot [i]. *)
Definition recover (d : list crc_metablock_t) : option (nat * crc_metablock_t) :=
  match scan d 0 None with
  | None => None
  | Some (j, r) => scan (firstn j d) 0 (Some (j, r))
  end.

Section Manager.
Variables (sizeof_crc_metablock extent_size : Z).

(** Modelled from the spec: the manager once [start] has finished: the
    in-memory version is the recovered one (0 on a device with no valid
    record) and the head is on the slot after the recovered one. *)
Definition start (d : list crc_metablock_t) : mgr :=
  match recover d with
  | Some (j, r) =>
      {| disk := d; head := head_after sizeof_crc_metablock extent_size (S j);
         mversion := version r |}
  | None => {| disk := d; head := head_init; mversion := 0 |}
  end.

(** Modelled from the spec: [write_metablock]: copy the payload into the
    scratch buffer, bump the version, set the CRC, write the record at
    [head.offset()] and advance the head. Queued requests are written in
    arrival order, so a sequence of calls is a sequence of these steps. *)
Definition write_metablock (mb : list Byte.byte) (m : mgr) : mgr :=
  let v := int_incr (mversion m) in
  let rec := set_crc {| _crc := 0; version := v; metablock := mb |} in
  {| disk := set_nth (disk m) (Z.to_nat (ring_index sizeof_crc_metablock extent_size (head m))) rec;
     head := head_incr sizeof_crc_metablock extent_size (head m);
     mversion := v |}.

Definition write_all (ps : list (list Byte.byte)) (m : mgr) : mgr :=
  fold_left (fun m p => write_metablock p m) ps m.

End Manager.
End Ring.

(* ------------------------------------------------------------------------- *)
(** ** [linux_thread_pool_t] (src/arch/runtime/thread_pool.cc)

    Thread messages are named by an identifier; a [NULL] message pointer is
    [None]. The pool's threads table holds [NULL] ([None]) until the thread
    has built its [linux_thread_t]. *)

Module ThreadPool.

Definition msg := nat.

(** The parts of [linux_thread_t] the pool touches. *)
Record linux_thread_t := mk_thread {
  external_messages : list msg;   (* message_hub.insert_external_message *)
  thread_do_shutdown : bool;      (* linux_thread_t::do_shutdown *)
  shutdown_notified : nat         (* shutdown_notify_event.write(1) calls *)
}.

Definition fresh_thread : linux_thread_t :=
  {| external_messages := []; thread_do_shutdown := false; shutdown_notified := 0 |}.

Record linux_thread_pool_t := mk_pool {
  interrupt_message : option msg;
  (** [generic_blocker_pool]: [NULL], or the pool, recorded here by the id of
      the thread that built it. *)
  generic_blocker_pool : option Z;
  n_threads : Z;
  threads : list (option linux_thread_t);
  do_shutdown : bool;
  shutdown_mutex_locked : bool;
  shutdown_cond_signals : nat;     (* pthread_cond_signal(&shutdown_cond) calls *)
  do_set_affinity : bool
}.

(** The constructor [linux_thread_pool_t(worker_threads, do_set_affinity)]:
    one extra utility thread. *)
Definition construct (worker_threads : Z) (affinity : bool) : linux_thread_pool_t :=
  {| interrupt_message := None; generic_blocker_pool := None;
     n_threads := worker_threads + 1;
     threads := repeat None (Z.to_nat (worker_threads + 1));
     do_shutdown := false; shutdown_mutex_locked := false;
     shutdown_cond_signals := 0; do_set_affinity := affinity |}.

Definition set_threads (p : linux_thread_pool_t) (ts : list (option linux_thread_t))
  : linux_thread_pool_t :=
  {| interrupt_message := interrupt_message p;
     generic_blocker_pool := generic_blocker_pool p; n_threads := n_threads p;
     threads := ts; do_shutdown := do_shutdown p;
     shutdown_mutex_locked := shutdown_mutex_locked p;
     shutdown_cond_signals := shutdown_cond_signals p;
     do_set_affinity := do_set_affinity p |}.

(** [set_interrupt_message]: swap under [interrupt_message_lock]. *)
Definition set_interrupt_message (m : option msg) (p : linux_thread_pool_t)
  : option msg * linux_thread_pool_t :=
  (interrupt_message p,
   {| interrupt_message := m; generic_blocker_pool := generic_blocker_pool p;
      n_threads := n_threads p; threads := threads p; do_shutdown := do_shutdown p;
      shutdown_mutex_locked := shutdown_mutex_locked p;
      shutdown_cond_signals := shutdown_cond_signals p;
      do_set_affinity := do_set_affinity p |}).

(** [threads[i]->message_hub.insert_external_message(m)]; [None] when
    [threads[i]] is [NULL] (the dereference crashes). *)
Definition insert_external_message (i : Z) (m : msg) (p : linux_thread_pool_t)
  : option linux_thread_pool_t :=
  match nth_error (threads p) (Z.to_nat i) with
  | Some (Some t) =>
      Some (set_threads p
        (Ring.set_nth (threads p) (Z.to_nat i)
           (Some {| external_messages := external_messages t ++ [m];
                    thread_do_shutdown := thread_do_shutdown t;
                    shutdown_notified := shutdown_notified t |})))
  | _ => None
  end.

(** [interrupt_handler]: take the interrupt message and set it to [NULL] in
    one swap; post it to [threads[n_threads - 1]] when it was not [NULL]. *)
Definition interrupt_handler (p : linux_thread_pool_t) : option linux_thread_pool_t :=
  let (interrupt_msg, p1) := set_interrupt_message None p in
  match interrupt_msg with
  | Some m => insert_external_message (n_threads p1 - 1) m p1
  | None => Some p1
  end.

(** [n] signals handled one after the other. *)
Fixpoint interrupt_handler_n (n : nat) (p : linux_thread_pool_t) : option linux_thread_pool_t :=
  match n with
  | O => Some p
  | S n' => match interrupt_handler p with
            | Some p' => interrupt_handler_n n' p'
            | None => None
            end
  end.

(** The thread [interrupt_handler] posts to: [n_threads - 1]. *)
Definition utility_thread (p : linux_thread_pool_t) : Z := n_threads p - 1.

(** [run_thread_pool]: the initial message goes to thread zero only. *)
Definition tdata_initial_message (initial_message : option msg) (i : Z) : option msg :=
  if i =? 0 then initial_message else None.

(** [start_thread] up to the first [barrier->wait()]: register the
    [linux_thread_t], and build the generic blocker pool when this thread was
    handed an initial message. *)
Definition start_thread_pre (initial : option msg) (i : Z) (p : linux_thread_pool_t)
  : linux_thread_pool_t :=
  let p1 := set_threads p (Ring.set_nth (threads p) (Z.to_nat i) (Some fresh_thread)) in
  match initial with
  | Some _ =>
      {| interrupt_message := interrupt_message p1; generic_blocker_pool := Some i;
         n_threads := n_threads p1; threads := threads p1; do_shutdown := do_shutdown p1;
         shutdown_mutex_locked := shutdown_mutex_locked p1;
         shutdown_cond_signals := shutdown_cond_signals p1;
         do_set_affinity := do_set_affinity p1 |}
  | None => p1
  end.

(** All threads reach the first barrier; [order] is the order in which their
    pre-barrier code happened to run. *)
Definition startup_pre (initial_message : option msg) (order : list Z)
    (p : linux_thread_pool_t) : linux_thread_pool_t :=
  fold_left (fun p i => start_thread_pre (tdata_initial_message initial_message i) i p)
    order p.

(** [0, 1, ..., n - 1]. *)
Definition zseq (n : Z) : list Z := map Z.of_nat (seq 0 (Z.to_nat n)).

(** *** The barrier protocol of [run_thread_pool] and [start_thread]

    Each participant's code is an action list. [BarrierWait] is
    [barrier->wait()] / [barrier.wait()]. *)

Inductive action :=
| BlockSignals | SetThreadLocals | ConstructWorker | InstallSegvHandler
| CreateBlockerPool | StoreInitialMessage | RunQueue | FreeSegvStack
| DeleteBlockerPool | ClearThreadSlot
| ResetDoShutdown | InitBarrier (arity : Z) | SpawnThread (i : Z) | SetAffinity (i : Z)
| MarkMainThread | InstallInterruptHandlers | WaitForShutdown
| RemoveInterruptHandlers | InitiateShutDown (i : Z) | JoinThread (i : Z)
| BarrierWait.

Definition is_wait (a : action) : bool :=
  match a with BarrierWait => true | _ => false end.

Definition is_spawn (a : action) : bool :=
  match a with SpawnThread _ => true | _ => false end.

(** [start_thread] for a thread whose [initial_message] is non-[NULL] iff
    [has_initial] (non-VALGRIND build). *)
Definition start_thread_program (has_initial : bool) : list action :=
  [BlockSignals; SetThreadLocals; ConstructWorker; InstallSegvHandler]
  ++ (if has_initial then [CreateBlockerPool] else [])
  ++ [BarrierWait]
  ++ (if has_initial then [StoreInitialMessage] else [])
  ++ [RunQueue; BarrierWait; FreeSegvStack]
  ++ (if has_initial then [DeleteBlockerPool] else [])
  ++ [ClearThreadSlot].

(** The arity given to [thread_barrier_t barrier(n_threads + 1)]. *)
Definition barrier_arity (p : linux_thread_pool_t) : Z := n_threads p + 1.

(** [run_thread_pool] on the main thread. *)
Definition run_thread_pool_program (p : linux_thread_pool_t) : list action :=
  [ResetDoShutdown; InitBarrier (barrier_arity p)]
  ++ flat_map (fun i => SpawnThread i :: (if do_set_affinity p then [SetAffinity i] else []))
       (zseq (n_threads p))
  ++ [MarkMainThread; BarrierWait; InstallInterruptHandlers; WaitForShutdown;
      RemoveInterruptHandlers]
  ++ map InitiateShutDown (zseq (n_threads p))
  ++ [BarrierWait]
  ++ map JoinThread (zseq (n_threads p)).

(** The programs of every barrier participant: the main thread, then the
    threads it spawns, thread [i] with [tdata->initial_message]. *)
Definition participants (initial_message : option msg) (p : linux_thread_pool_t)
  : list (list action) :=
  run_thread_pool_program p
  :: map (fun i => start_thread_program
                     (match tdata_initial_message initial_message i with
                      | Some _ => true | None => false end))
         (zseq (n_threads p)).

Definition count_waits (l : list action) : nat := length (filter is_wait l).

(** The actions before the first [BarrierWait]. *)
Fixpoint before_first_wait (l : list action) : list action :=
  match l with
  | [] => []
  | a :: l' => if is_wait a then [] else a :: before_first_wait l'
  end.

(** The actions after the first [BarrierWait]. *)
Fixpoint after_first_wait (l : list action) : list action :=
  match l with
  | [] => []
  | a :: l' => if is_wait a then l' else after_first_wait l'
  end.

(** A cyclic barrier ([thread_barrier_t]): how many are waiting in the
    current round and how many rounds have completed. *)
Record barrier_t := mk_barrier { waiting : Z; generation : Z }.

Definition barrier_init : barrier_t := {| waiting := 0; generation := 0 |}.

Definition barrier_wait (arity : Z) (b : barrier_t) : barrier_t :=
  if waiting b + 1 =? arity
  then {| waiting := 0; generation := generation b + 1 |}
  else {| waiting := waiting b + 1; generation := generation b |}.

(** The barrier after [k] calls of [wait], in whatever interleaving. *)
Definition barrier_after (arity : Z) (k : nat) : barrier_t :=
  Nat.iter k (barrier_wait arity) barrier_init.

(** *** [sigsegv_handler] and its installation in [start_thread]
    (non-VALGRIND build; Linux constants). *)

Definition SIGSEGV : Z := 11.
Definition SA_SIGINFO : Z := 4.
Definition SA_ONSTACK : Z := 0x08000000.
(** [SIGSTKSZ]: 8192 in glibc before 2.34, a run-time value from 2.34 on;
    only its being positive matters below. *)
Definition SIGSTKSZ : Z := 8192.
Definition SEGV_STACK_SIZE : Z := SIGSTKSZ.

Inductive handler_t := SIG_DFL | SIG_IGN | Sigsegv_handler | Interrupt_handler.

(** What [start_thread] installs: the [sigaltstack] and the [sigaction]. *)
Record segv_setup := mk_segv_setup {
  ss_size : Z; ss_flags : Z;        (* the [stack_t] given to [sigaltstack] *)
  sa_flags : Z; sa_sigaction : handler_t
}.

Definition start_thread_segv_setup : segv_setup :=
  {| ss_size := SEGV_STACK_SIZE; ss_flags := 0;
     sa_flags := Z.lor SA_SIGINFO SA_ONSTACK; sa_sigaction := Sigsegv_handler |}.

Inductive stack_kind := AlternateStack | InterruptedStack.

(** The signal state that decides how a [SIGSEGV] is delivered: the
    disposition, one per process, set by [sigaction]; the alternate stack,
    one per thread, set by [sigaltstack]. A thread that never calls
    [sigaltstack] has none: the main thread starts without one and a thread
    made by [pthread_create] does not inherit its creator's. Threads are
    named by [linux_thread_pool_t::thread_id]: [i] for worker [i], [-1] for
    the main thread. *)
Record sigstate := mk_sigstate {
  segv_action : option (Z * handler_t);   (* [(sa_flags, handler)]; [None]: [SIG_DFL] *)
  altstacks : list (Z * (Z * Z))          (* thread -> [(ss_flags, ss_size)] *)
}.

Definition sigstate_init : sigstate := {| segv_action := None; altstacks := [] |}.

(** [start_thread] of thread [i] (lines 94-109): [sigaltstack] for the
    calling thread, then [sigaction] for the process. *)
Definition start_thread_segv (s : segv_setup) (i : Z) (st : sigstate) : sigstate :=
  {| segv_action := Some (sa_flags s, sa_sigaction s);
     altstacks := (i, (ss_flags s, ss_size s)) :: altstacks st |}.

(** The workers' start-up, in the order they run it. *)
Definition startup_segv (order : list Z) (st : sigstate) : sigstate :=
  fold_left (fun st i => start_thread_segv start_thread_segv_setup i st) order st.

Fixpoint altstack_of (i : Z) (l : list (Z * (Z * Z))) : option (Z * Z) :=
  match l with
  | [] => None
  | (j, ss) :: l' => if i =? j then Some ss else altstack_of i l'
  end.

(** Delivery of [SIGSEGV] to thread [i] (kernel side). [None]: the default
    action, the process dies without running a handler. Otherwise the
    handler runs on the thread's alternate stack when it was installed with
    [SA_ONSTACK] and the thread has an enabled alternate stack ([ss_flags = 0],
    not [SS_DISABLE]) of non-zero size, and on the interrupted stack if not. *)
Definition segv_delivery (st : sigstate) (i : Z) : option (handler_t * stack_kind) :=
  match segv_action st with
  | None => None
  | Some (flags, h) =>
      Some (h, match altstack_of i (altstacks st) with
               | Some (ssf, sz) =>
                   if negb (Z.land flags SA_ONSTACK =? 0) && (ssf =? 0) && (0 <? sz)
                   then AlternateStack else InterruptedStack
               | None => InterruptedStack
               end)
  end.

Inductive crash_message :=
| CallstackOverflow              (* "Callstack overflow in a coroutine" *)
| SegfaultAt (addr : Z)          (* "Segmentation fault from reading the address %p." *)
| UnexpectedSignal (signum : Z). (* "Unexpected signal: %d" *)

(** How a handler invocation ends: [crash] (never returns) or by returning. *)
Inductive handler_outcome := Crash (m : crash_message) | Return.

Section Segv.
(** [is_coroutine_stack_overflow] (coroutine runtime, not in this file):
    whether the address is in a coroutine stack's guard page. *)
Variable is_coroutine_stack_overflow : Z -> bool.

Definition sigsegv_handler (signum : Z) (si_addr : Z) : handler_outcome :=
  if signum =? SIGSEGV then
    if is_coroutine_stack_overflow si_addr then Crash CallstackOverflow
    else Crash (SegfaultAt si_addr)
  else Crash (UnexpectedSignal signum).
End Segv.

(** *** [shutdown_thread_pool]

    [pthread_mutex_lock] of a mutex held elsewhere would block; in this
    sequential model it is [None], as are failing [guarantee_xerr]s. *)

Inductive pool_op := MutexLock | SetDoShutdown | CondSignal | MutexUnlock.

Definition exec_op (o : pool_op) (p : linux_thread_pool_t) : option linux_thread_pool_t :=
  match o with
  | MutexLock =>
      if shutdown_mutex_locked p then None else
      Some {| interrupt_message := interrupt_message p;
              generic_blocker_pool := generic_blocker_pool p; n_threads := n_threads p;
              threads := threads p; do_shutdown := do_shutdown p;
              shutdown_mutex_locked := true;
              shutdown_cond_signals := shutdown_cond_signals p;
              do_set_affinity := do_set_affinity p |}
  | MutexUnlock =>
      if shutdown_mutex_locked p then
      Some {| interrupt_message := interrupt_message p;
              generic_blocker_pool := generic_blocker_pool p; n_threads := n_threads p;
              threads := threads p; do_shutdown := do_shutdown p;
              shutdown_mutex_locked := false;
              shutdown_cond_signals := shutdown_cond_signals p;
              do_set_affinity := do_set_affinity p |}
      else None
  | SetDoShutdown =>
      Some {| interrupt_message := interrupt_message p;
              generic_blocker_pool := generic_blocker_pool p; n_threads := n_threads p;
              threads := threads p; do_shutdown := true;
              shutdown_mutex_locked := shutdown_mutex_locked p;
              shutdown_cond_signals := shutdown_cond_signals p;
              do_set_affinity := do_set_affinity p |}
  | CondSignal =>
      Some {| interrupt_message := interrupt_message p;
              generic_blocker_pool := generic_blocker_pool p; n_threads := n_threads p;
              threads := threads p; do_shutdown := do_shutdown p;
              shutdown_mutex_locked := shutdown_mutex_locked p;
              shutdown_cond_signals := S (shutdown_cond_signals p);
              do_set_affinity := do_set_affinity p |}
  end.

(** Run the operations; each is paired with the state it ran in. *)
Fixpoint exec_ops (os : list pool_op) (p : linux_thread_pool_t)
  : option (list (pool_op * linux_thread_pool_t) * linux_thread_pool_t) :=
  match os with
  | [] => Some ([], p)
  | o :: os' =>
      match exec_op o p with
      | Some p' => match exec_ops os' p' with
                   | Some (tr, q) => Some ((o, p) :: tr, q)
                   | None => None
                   end
      | None => None
      end
  end.

Definition shutdown_thread_pool_ops : list pool_op :=
  [MutexLock; SetDoShutdown; CondSignal; MutexUnlock].

Definition shutdown_thread_pool (p : linux_thread_pool_t)
  : option (list (pool_op * linux_thread_pool_t) * linux_thread_pool_t) :=
  exec_ops shutdown_thread_pool_ops p.

End ThreadPool.

(* ------------------------------------------------------------------------- *)
(** ** [linux_thread_t] shut-down, and the end of [start_thread] and
    [run_thread_pool] *)

Module ThreadLifecycle.
Import ThreadPool.

(** [linux_thread_t::initiate_shut_down()]: under [do_shutdown_mutex], set
    [do_shutdown] and write 1 to [shutdown_notify_event]. *)
Definition initiate_shut_down (t : linux_thread_t) : linux_thread_t :=
  {| external_messages := external_messages t; thread_do_shutdown := true;
     shutdown_notified := S (shutdown_notified t) |}.

(** [linux_thread_t::should_shut_down()]: read [do_shutdown] under the mutex. *)
Definition should_shut_down (t : linux_thread_t) : bool := thread_do_shutdown t.

(** [run_thread_pool]'s loop [for (i ...) threads[i]->initiate_shut_down()];
    [None] when some [threads[i]] is [NULL]. *)
Fixpoint initiate_shut_downs (is : list Z) (p : linux_thread_pool_t)
  : option linux_thread_pool_t :=
  match is with
  | [] => Some p
  | i :: is' =>
      match nth_error (threads p) (Z.to_nat i) with
      | Some (Some t) =>
          initiate_shut_downs is'
            (set_threads p (Ring.set_nth (threads p) (Z.to_nat i)
                              (Some (initiate_shut_down t))))
      | _ => None
      end
  end.

(** [start_thread] after the second [barrier->wait()]: the thread that built
    the generic blocker pool deletes it and resets the pointer to [NULL];
    then [threads[i] = NULL]. *)
Definition start_thread_post (created : bool) (i : Z) (p : linux_thread_pool_t)
  : linux_thread_pool_t :=
  let p1 :=
    if created then
      {| interrupt_message := interrupt_message p; generic_blocker_pool := None;
         n_threads := n_threads p; threads := threads p; do_shutdown := do_shutdown p;
         shutdown_mutex_locked := shutdown_mutex_locked p;
         shutdown_cond_signals := shutdown_cond_signals p;
         do_set_affinity := do_set_affinity p |}
    else p in
  set_threads p1 (Ring.set_nth (threads p1) (Z.to_nat i) None).

(** Every thread runs its post-barrier code, in the order [order]; a thread
    built the pool iff it was handed an initial message. *)
Definition teardown_post (initial_message : option msg) (order : list Z)
    (p : linux_thread_pool_t) : linux_thread_pool_t :=
  fold_left (fun p i =>
               start_thread_post
                 (match tdata_initial_message initial_message i with
                  | Some _ => true | None => false end) i p)
    order p.

End ThreadLifecycle.

(* ------------------------------------------------------------------------- *)
(** ** Sample records and inputs *)

(** *** [alrm_handler] (built on OS X only)

    [SIGALRM] on the main thread: a newly allocated [alrm_message_t] is
    posted to each of [threads[0 .. n_threads - 1]] in turn.
    [alrm_message i] is the object allocated at step [i]; a [NULL] entry is
    dereferenced, a crash, [None]. *)
Module AlrmHandler.
Import ThreadPool.

Fixpoint alrm_posts (alrm_message : Z -> msg) (is : list Z) (p : linux_thread_pool_t)
  : option linux_thread_pool_t :=
  match is with
  | [] => Some p
  | i :: is' =>
      match insert_external_message i (alrm_message i) p with
      | Some p' => alrm_posts alrm_message is' p'
      | None => None
      end
  end.

Definition alrm_handler (alrm_message : Z -> msg) (p : linux_thread_pool_t)
  : option linux_thread_pool_t :=
  alrm_posts alrm_message (zseq (n_threads p)) p.

End AlrmHandler.

Module Examples.
Import Metablock Layout.

(** A valid record holding the largest [int] version. *)
Definition recA : crc_metablock_t :=
  set_crc {| _crc := 0; version := INT_MAX; metablock := [Byte.x41] |}.

(** An invalid record (its stored CRC is not the payload's). *)
Definition recBad : crc_metablock_t :=
  {| _crc := 0; version := 0; metablock := [Byte.x00] |}.

(** The bytes of the ASCII string 123456789. *)
Definition check_input : list Byte.byte :=
  [Byte.x31; Byte.x32; Byte.x33; Byte.x34; Byte.x35; Byte.x36; Byte.x37; Byte.x38;
   Byte.x39].

End Examples.

(* ========================================================================= *)
(** * Proofs *)

(* ------------------------------------------------------------------------- *)
(** ** Bit-level facts about [reflect] and the two CRC loops *)

Module CrcFacts.
Import BoostCrc.

Lemma testbit_bit (b : bool) (k : Z) :
  Z.testbit (if b then 1 else 0) k = b && (k =? 0).
Proof.
  destruct b; simpl.
  - destruct (Z.eq_dec k 0) as [->|Hk]; [reflexivity|].
    destruct (Z_lt_le_dec k 0).
    + rewrite Z.testbit_neg_r by lia. symmetry. apply Z.eqb_neq. lia.
    + rewrite Z.bits_above_log2 by (simpl; lia). symmetry. apply Z.eqb_neq. lia.
  - apply Z.bits_0.
Qed.

Lemma reflect_aux_S (w : nat) (x acc : Z) :
  reflect_aux (S w) x acc =
  reflect_aux w (Z.shiftr x 1)
    (Z.lor (Z.shiftl acc 1) (if Z.testbit x 0 then 1 else 0)).
Proof. reflexivity. Qed.

Lemma reflect_aux_spec (w : nat) : forall x acc i, 0 <= i ->
  Z.testbit (reflect_aux w x acc) i =
  if i <? Z.of_nat w then Z.testbit x (Z.of_nat w - 1 - i)
  else Z.testbit acc (i - Z.of_nat w).
Proof.
  induction w as [|w IH]; intros x acc i Hi; [|rewrite reflect_aux_S].
  - simpl reflect_aux. replace (i <? Z.of_nat 0) with false by (symmetry; apply Z.ltb_ge; lia).
    f_equal. lia.
  - rewrite IH by lia. rewrite Nat2Z.inj_succ.
    destruct (Z.ltb_spec i (Z.of_nat w)); destruct (Z.ltb_spec i (Z.succ (Z.of_nat w))); try lia.
    + rewrite Z.shiftr_spec by lia. f_equal. lia.
    + assert (i = Z.of_nat w) as -> by lia.
      rewrite Z.sub_diag, Z.lor_spec, testbit_bit, Z.shiftl_spec by lia.
      rewrite (Z.testbit_neg_r acc), Z.eqb_refl by lia.
      rewrite orb_false_l, andb_true_r. f_equal; lia.
    + rewrite Z.lor_spec, testbit_bit, Z.shiftl_spec by lia.
      replace (i - Z.of_nat w =? 0) with false by (symmetry; apply Z.eqb_neq; lia).
      rewrite andb_false_r, orb_false_r. f_equal. lia.
Qed.

Lemma reflect_spec (w : nat) (x i : Z) :
  Z.testbit (reflect w x) i =
  (0 <=? i) && (i <? Z.of_nat w) && Z.testbit x (Z.of_nat w - 1 - i).
Proof.
  unfold reflect.
  destruct (Z.leb_spec 0 i).
  - rewrite reflect_aux_spec by lia. simpl.
    destruct (i <? Z.of_nat w); [reflexivity|]. apply Z.bits_0.
  - simpl. apply Z.testbit_neg_r. lia.
Qed.

Lemma testbit_high_bit (k : Z) : Z.testbit high_bit k = (k =? 31).
Proof.
  unfold high_bit. rewrite Z.shiftl_1_l, Z.pow2_bits_eqb by lia.
  apply Z.eqb_sym.
Qed.

Lemma testbit_high_or_0 (bit : bool) (k : Z) :
  Z.testbit (if bit then high_bit else 0) k = bit && (k =? 31).
Proof. destruct bit; [apply testbit_high_bit | apply Z.bits_0]. Qed.

Lemma testbit_mask32 (k : Z) : 0 <= k -> Z.testbit mask32 k = (k <? 32).
Proof. intros Hk. unfold mask32. apply Z.testbit_ones_nonneg; lia. Qed.

Lemma poly_reflected_eq : Crc32Spec.poly_reflected = reflect 32 0x04C11DB7.
Proof. vm_compute. reflexivity. Qed.

Ltac decide_cmps :=
  repeat match goal with
    | |- context [?a <? ?b] => destruct (Z.ltb_spec a b)
    | |- context [?a <=? ?b] => destruct (Z.leb_spec a b)
    | |- context [?a =? ?b] => destruct (Z.eqb_spec a b)
    end; try lia.

(** One step of the MSB-first boost loop, seen through [reflect 32], is one
    step of the LSB-first loop with the reflected polynomial. *)
Lemma process_bit_reflect (r : Z) (bit : bool) :
  reflect 32 (process_bit 0x04C11DB7 r bit) =
  Crc32Spec.lsb_bit (reflect 32 r) bit.
Proof.
  unfold Crc32Spec.lsb_bit, Crc32Spec.step, process_bit.
  assert (Hc : Z.testbit (Z.lxor r (if bit then high_bit else 0)) 31 =
               Z.testbit (Z.lxor (reflect 32 r) (if bit then 1 else 0)) 0).
  { rewrite !Z.lxor_spec, reflect_spec, testbit_bit, testbit_high_or_0.
    reflexivity. }
  rewrite Hc. rewrite poly_reflected_eq.
  destruct (Z.testbit (Z.lxor (reflect 32 r) (if bit then 1 else 0)) 0);
    apply Z.bits_inj'; intros n Hn;
    rewrite reflect_spec; change (Z.of_nat 32) with 32;
    destruct (Z_lt_le_dec n 32).
  - rewrite !Z.lxor_spec, Z.land_spec, Z.shiftl_spec, testbit_mask32 by lia.
    rewrite !Z.lxor_spec, Z.shiftr_spec by lia.
    rewrite !Z.lxor_spec, !reflect_spec, testbit_bit, testbit_high_or_0.
    change (Z.of_nat 32) with 32.
    replace (32 - 1 - (n + 1)) with (32 - 1 - n - 1) by lia.
    destruct (Z.eq_dec n 31) as [->|Hn31].
    + rewrite (Z.testbit_neg_r r (32 - 1 - 31 - 1)) by lia.
      decide_cmps; btauto.
    + decide_cmps; btauto.
  - rewrite !Z.lxor_spec, Z.shiftr_spec by lia.
    rewrite !Z.lxor_spec, !reflect_spec, testbit_bit.
    change (Z.of_nat 32) with 32.
    decide_cmps; btauto.
  - rewrite Z.land_spec, Z.shiftl_spec, testbit_mask32 by lia.
    rewrite Z.shiftr_spec by lia.
    rewrite !Z.lxor_spec, !reflect_spec, testbit_bit, testbit_high_or_0.
    change (Z.of_nat 32) with 32.
    replace (32 - 1 - (n + 1)) with (32 - 1 - n - 1) by lia.
    destruct (Z.eq_dec n 31) as [->|Hn31].
    + rewrite (Z.testbit_neg_r r (32 - 1 - 31 - 1)) by lia.
      decide_cmps; btauto.
    + decide_cmps; btauto.
  - rewrite Z.shiftr_spec by lia.
    rewrite !Z.lxor_spec, !reflect_spec, testbit_bit.
    change (Z.of_nat 32) with 32.
    decide_cmps; btauto.
Qed.

Lemma process_bits_S (n : nat) (b rem : Z) :
  process_bits 0x04C11DB7 (S n) b rem =
  process_bits 0x04C11DB7 n b (process_bit 0x04C11DB7 rem (Z.testbit b (Z.of_nat n))).
Proof. reflexivity. Qed.

Lemma lsb_bits_S (n : nat) (x c : Z) :
  Crc32Spec.lsb_bits (S n) x c =
  Crc32Spec.lsb_bits n (Z.shiftr x 1) (Crc32Spec.lsb_bit c (Z.testbit x 0)).
Proof. reflexivity. Qed.

Lemma steps_S (k : nat) (c : Z) :
  Crc32Spec.steps (S k) c = Crc32Spec.steps k (Crc32Spec.step c).
Proof. reflexivity. Qed.

Lemma process_bytes_cons (r b : Z) (bytes : list Z) :
  process_bytes 0x04C11DB7 true r (b :: bytes) =
  process_bytes 0x04C11DB7 true (process_byte 0x04C11DB7 true r b) bytes.
Proof. reflexivity. Qed.

Lemma fold_update_cons (c b : Z) (bytes : list Z) :
  fold_left Crc32Spec.update (b :: bytes) c =
  fold_left Crc32Spec.update bytes (Crc32Spec.update c b).
Proof. reflexivity. Qed.

Lemma process_bits_reflect (n : nat) : forall b x r,
  (forall j, 0 <= j < Z.of_nat n ->
             Z.testbit b (Z.of_nat n - 1 - j) = Z.testbit x j) ->
  reflect 32 (process_bits 0x04C11DB7 n b r) =
  Crc32Spec.lsb_bits n x (reflect 32 r).
Proof.
  induction n as [|n IH]; intros b x r Hbits.
  { cbn [process_bits Crc32Spec.lsb_bits]. reflexivity. }
  rewrite process_bits_S, lsb_bits_S.
  rewrite (IH b (Z.shiftr x 1)).
  - rewrite process_bit_reflect.
    replace (Z.testbit b (Z.of_nat n)) with (Z.testbit x 0); [reflexivity|].
    rewrite <- (Hbits 0) by lia. f_equal. lia.
  - intros j Hj. rewrite Z.shiftr_spec by lia.
    rewrite <- (Hbits (j + 1)) by lia. f_equal. lia.
Qed.

Lemma step_lxor (c x : Z) :
  Crc32Spec.step (Z.lxor c x) =
  Z.lxor (Crc32Spec.lsb_bit c (Z.testbit x 0)) (Z.shiftr x 1).
Proof.
  unfold Crc32Spec.lsb_bit, Crc32Spec.step.
  assert (Hc : Z.testbit (Z.lxor c x) 0 =
               Z.testbit (Z.lxor c (if Z.testbit x 0 then 1 else 0)) 0).
  { rewrite !Z.lxor_spec, testbit_bit. destruct (Z.testbit x 0); reflexivity. }
  rewrite Hc.
  destruct (Z.testbit (Z.lxor c (if Z.testbit x 0 then 1 else 0)) 0);
    apply Z.bits_inj'; intros n Hn;
    rewrite ?Z.lxor_spec, !Z.shiftr_spec, !Z.lxor_spec, testbit_bit by lia;
    decide_cmps; btauto.
Qed.

Lemma steps_lxor (k : nat) : forall c x,
  0 <= x < 2 ^ Z.of_nat k ->
  Crc32Spec.steps k (Z.lxor c x) = Crc32Spec.lsb_bits k x c.
Proof.
  induction k as [|k IH]; intros c x Hx.
  - simpl in Hx. assert (x = 0) as -> by lia. simpl. apply Z.lxor_0_r.
  - rewrite steps_S, lsb_bits_S, step_lxor. apply IH.
    rewrite Z.shiftr_div_pow2 by lia. rewrite Nat2Z.inj_succ, Z.pow_succ_r in Hx by lia.
    split.
    + apply Z.div_pos; lia.
    + apply Z.div_lt_upper_bound; lia.
Qed.

Lemma process_byte_reflect (r byte : Z) :
  0 <= byte < 256 ->
  reflect 32 (process_byte 0x04C11DB7 true r byte) =
  Crc32Spec.update (reflect 32 r) byte.
Proof.
  intros Hb. unfold process_byte, Crc32Spec.update.
  rewrite steps_lxor by (simpl; lia).
  apply process_bits_reflect.
  intros j Hj. rewrite reflect_spec. change (Z.of_nat 8) with 8 in *.
  decide_cmps. cbn [andb]. f_equal. lia.
Qed.

Lemma process_bytes_reflect (bytes : list Z) : forall r,
  Forall (fun b => 0 <= b < 256) bytes ->
  reflect 32 (process_bytes 0x04C11DB7 true r bytes) =
  fold_left Crc32Spec.update bytes (reflect 32 r).
Proof.
  induction bytes as [|b bytes IH]; intros r Hall.
  { cbn [process_bytes fold_left]. reflexivity. }
  inversion Hall as [|? ? Hb Hrest]; subst.
  rewrite process_bytes_cons, fold_update_cons, IH by assumption. rewrite process_byte_reflect by assumption.
  reflexivity.
Qed.

(** [crc_optimal<32, 0x04C11DB7, 0xFFFFFFFF, 0xFFFFFFFF, true, true>] computes
    the standard CRC-32 of any byte sequence. *)
Lemma crc_optimal_is_crc32 (bytes : list Z) :
  Forall (fun b => 0 <= b < 256) bytes ->
  crc_optimal 0x04C11DB7 0xFFFFFFFF 0xFFFFFFFF true true bytes =
  Crc32Spec.crc32 bytes.
Proof.
  intros Hall. unfold crc_optimal, checksum, Crc32Spec.crc32.
  rewrite process_bytes_reflect by assumption.
  change (reflect 32 0xFFFFFFFF) with 0xFFFFFFFF.
  set (acc := fold_left Crc32Spec.update bytes 0xFFFFFFFF).
  assert (Hacc : acc = reflect 32 (process_bytes 0x04C11DB7 true 0xFFFFFFFF bytes)).
  { unfold acc. rewrite process_bytes_reflect by assumption. reflexivity. }
  apply Z.bits_inj'; intros n Hn.
  rewrite Z.land_spec, testbit_mask32, !Z.lxor_spec by lia.
  destruct (Z.ltb_spec n 32); [apply andb_true_r|].
  rewrite Hacc, reflect_spec.
  change (Z.of_nat 32) with 32.
  change 0xFFFFFFFF with mask32. rewrite testbit_mask32 by lia.
  decide_cmps. cbn [andb xorb]. reflexivity.
Qed.

End CrcFacts.

(* ------------------------------------------------------------------------- *)
(** ** The head cursor *)

Module HeadFacts.
Import Head.

Section Geometry.
Variables (static_header_size sizeof_crc_metablock extent_size : Z).
Hypothesis Hsz : 0 < sizeof_crc_metablock.
Hypothesis Hes : sizeof_crc_metablock <= extent_size.

Local Definition spe := slots_per_extent sizeof_crc_metablock extent_size.

Lemma spe_pos : 1 <= spe.
Proof.
  unfold spe, slots_per_extent.
  assert (0 < extent_size / sizeof_crc_metablock) by (apply Z.div_str_pos; lia).
  lia.
Qed.

Lemma head_after_S (n : nat) :
  head_after sizeof_crc_metablock extent_size (S n) =
  head_incr sizeof_crc_metablock extent_size (head_after sizeof_crc_metablock extent_size n).
Proof. reflexivity. Qed.

(** After [n] increments the cursor has gone [q] times around an extent and
    sits [mb_slot] slots into the current one. *)
Lemma head_after_shape (n : nat) :
  exists q, 0 <= q /\
    Z.of_nat n = q * spe + mb_slot (head_after sizeof_crc_metablock extent_size n) /\
    0 <= mb_slot (head_after sizeof_crc_metablock extent_size n) < spe /\
    extent (head_after sizeof_crc_metablock extent_size n) = q mod 2 /\
    wraparound (head_after sizeof_crc_metablock extent_size n) = (2 <=? q).
Proof.
  pose proof spe_pos as Hspe.
  induction n as [|n IH].
  - exists 0. simpl. repeat split; lia || reflexivity.
  - destruct IH as (q & Hq & Hn & Hslot & Hext & Hwrap).
    rewrite head_after_S. unfold head_incr.
    set (h0 := head_after sizeof_crc_metablock extent_size n) in *.
    fold spe.
    destruct (Z.eqb_spec (mb_slot h0 + 1) spe) as [Heq|Hne]; cbn [mb_slot extent wraparound].
    + exists (q + 1). rewrite Hext, Hwrap. unfold MB_NEXTENTS.
      repeat split; try lia.
      * rewrite Z.add_mod_idemp_l by lia. reflexivity.
      * destruct (Z.leb_spec 2 q); destruct (Z.leb_spec 2 (q + 1));
          destruct (Z.eqb_spec ((q mod 2 + 1) mod 2) 0); simpl; try reflexivity;
          try lia.
        all: assert (q = 0 \/ q = 1) as [-> | ->] by lia;
          first [ lia
                | exfalso; match goal with H : _ <> 0 |- _ => apply H; reflexivity end
                | match goal with H : _ mod 2 = 0 |- _ => vm_compute in H; discriminate end ].
    + exists q. repeat split; try lia; assumption.
Qed.

Lemma head_after_geometry (n : nat) :
  let h := head_after sizeof_crc_metablock extent_size n in
  mb_slot h = Z.of_nat n mod spe /\
  extent h = (Z.of_nat n / spe) mod MB_NEXTENTS /\
  wraparound h = (MB_NEXTENTS * spe <=? Z.of_nat n) /\
  ring_index sizeof_crc_metablock extent_size h = Z.of_nat n mod (MB_NEXTENTS * spe).
Proof.
  intros h. pose proof spe_pos as Hspe.
  destruct (head_after_shape n) as (q & Hq & Hn & Hslot & Hext & Hwrap).
  fold h in Hn, Hslot, Hext, Hwrap.
  assert (Hm : mb_slot h = Z.of_nat n mod spe).
  { apply (Z.mod_unique_pos _ _ q); lia. }
  assert (Hd : q = Z.of_nat n / spe).
  { apply (Z.div_unique_pos _ _ _ (mb_slot h)); lia. }
  unfold MB_NEXTENTS, ring_index. fold spe.
  rewrite <- Hd, <- Hm, Hext, Hwrap.
  repeat split.
  - destruct (Z.leb_spec 2 q); destruct (Z.leb_spec (2 * spe) (Z.of_nat n));
      try reflexivity; nia.
  - apply (Z.mod_unique_pos _ _ (q / 2)).
    + pose proof (Z.mod_pos_bound q 2 ltac:(lia)). nia.
    + pose proof (Z.div_mod q 2 ltac:(lia)). nia.
Qed.

Lemma ring_index_bound (n : nat) :
  0 <= ring_index sizeof_crc_metablock extent_size
         (head_after sizeof_crc_metablock extent_size n) < MB_NEXTENTS * spe.
Proof.
  destruct (head_after_geometry n) as (_ & _ & _ & ->).
  pose proof spe_pos. apply Z.mod_pos_bound. unfold MB_NEXTENTS. lia.
Qed.

End Geometry.
End HeadFacts.

(* ------------------------------------------------------------------------- *)
(** ** The record's CRC *)

Module MetablockFacts.
Import Metablock.

Lemma byte_vals_bounded (l : list Byte.byte) :
  Forall (fun b => 0 <= b < 256) (map byte_val l).
Proof.
  apply Forall_map, Forall_forall. intros b _. unfold byte_val.
  pose proof (Byte.to_N_bounded b). lia.
Qed.

Lemma crc_eq_crc32 (r : crc_metablock_t) :
  crc r = Crc32Spec.crc32 (map byte_val (metablock r)).
Proof. apply CrcFacts.crc_optimal_is_crc32, byte_vals_bounded. Qed.

Lemma crc_set_crc (r : crc_metablock_t) : crc (set_crc r) = crc r.
Proof. unfold crc. cbn [metablock set_crc]. reflexivity. Qed.

Lemma set_crc_check (r : crc_metablock_t) : check_crc (set_crc r) = true.
Proof.
  unfold check_crc. rewrite crc_set_crc. cbn [_crc set_crc]. apply Z.eqb_refl.
Qed.

(** [crc()] reads neither [_crc] nor [version]. *)
Lemma crc_payload_only (r : crc_metablock_t) (c v : Z) :
  crc {| _crc := c; version := v; metablock := metablock r |} = crc r.
Proof. unfold crc. cbn [metablock]. reflexivity. Qed.

Lemma check_crc_spec (r : crc_metablock_t) :
  check_crc r = true <-> _crc r = Crc32Spec.crc32 (map byte_val (metablock r)).
Proof. unfold check_crc. rewrite Z.eqb_eq, crc_eq_crc32. reflexivity. Qed.

End MetablockFacts.

(* ------------------------------------------------------------------------- *)
(** ** The recovery scan and the write sequence *)

Module RingFacts.
Import Metablock Layout Head Ring.

Lemma set_nth_length {A : Type} (l : list A) (i : nat) (x : A) :
  length (set_nth l i x) = length l.
Proof.
  revert i; induction l as [|y l IH]; intros [|i]; simpl; auto.
Qed.

Lemma nth_error_set_nth {A : Type} (l : list A) (i j : nat) (x : A) :
  (i < length l)%nat ->
  nth_error (set_nth l i x) j = if Nat.eqb j i then Some x else nth_error l j.
Proof.
  revert i j; induction l as [|y l IH]; intros [|i] [|j] Hi; simpl in *;
    try lia; try reflexivity.
  apply IH. lia.
Qed.

Lemma int_incr_succ (v : Z) : INT_MIN <= v < INT_MAX -> int_incr v = v + 1.
Proof.
  unfold int_incr, INT_MIN, INT_MAX. intros Hv.
  change (2 ^ 31) with 2147483648 in *. change (2 ^ 32) with 4294967296.
  rewrite Z.mod_small by lia. lia.
Qed.

(** The scan returns a candidate whose version bounds every valid slot and
    the candidate it started from. *)
Lemma scan_max (l : list crc_metablock_t) : forall k best i r,
  scan l k best = Some (i, r) ->
  (forall x, In x l -> check_crc x = true -> version x <= version r) /\
  (forall i0 b, best = Some (i0, b) -> version b <= version r).
Proof.
  induction l as [|x l IH]; intros k best i r Hs; simpl in Hs.
  - subst best. split; [intros ? []|]. intros i0 b [= _ ->]. lia.
  - destruct (IH _ _ _ _ Hs) as [Hl Hb]. split.
    + intros y [<-|Hy] Hv; [|auto].
      unfold better in Hb. rewrite Hv in Hb. cbn [andb] in Hb.
      destruct best as [[i0 b]|].
      * destruct (Z.ltb_spec (version b) (version x)).
        -- apply (Hb k x). reflexivity.
        -- specialize (Hb i0 b eq_refl). lia.
      * apply (Hb k x). reflexivity.
    + intros i0 b ->. unfold better in Hb.
      destruct (check_crc x); cbn [andb] in Hb.
      * destruct (Z.ltb_spec (version b) (version x)).
        -- specialize (Hb k x eq_refl). lia.
        -- apply (Hb i0 b). reflexivity.
      * apply (Hb i0 b). reflexivity.
Qed.

(** The candidate comes from the slots or is the one the scan started
    from. *)
Lemma scan_origin (l : list crc_metablock_t) : forall k best i r,
  scan l k best = Some (i, r) -> best = Some (i, r) \/ In r l.
Proof.
  induction l as [|x l IH]; intros k best i r Hs; simpl in Hs; [auto|].
  destruct (IH _ _ _ _ Hs) as [Hb|Hin]; [|right; right; exact Hin].
  destruct (better best x); [inversion Hb; subst; right; left; reflexivity|auto].
Qed.

Lemma scan_none (l : list crc_metablock_t) : forall k best,
  scan l k best = None ->
  best = None /\ forall x, In x l -> check_crc x = false.
Proof.
  induction l as [|x l IH]; intros k best Hs; simpl in Hs.
  - split; [exact Hs | intros ? []].
  - destruct (IH _ _ Hs) as [Hb Hl].
    destruct (better best x) eqn:Hbx; [discriminate|subst best].
    split; [reflexivity|].
    intros y [<-|Hy]; [|auto].
    unfold better in Hbx. rewrite andb_true_r in Hbx. exact Hbx.
Qed.

(** A candidate that no slot strictly beats stays. *)
Lemma scan_keep (l : list crc_metablock_t) : forall k i b,
  (forall x, In x l -> check_crc x = true -> version x <= version b) ->
  scan l k (Some (i, b)) = Some (i, b).
Proof.
  induction l as [|x l IH]; intros k i b Hl; simpl; [reflexivity|].
  replace (better (Some (i, b)) x) with false.
  - apply IH. intros y Hy. apply Hl. right. exact Hy.
  - unfold better. destruct (check_crc x) eqn:Hv; [|reflexivity].
    specialize (Hl x (or_introl eq_refl) Hv). simpl.
    symmetry. apply Z.ltb_ge. lia.
Qed.

(** A valid slot whose version is strictly larger than every other valid
    slot's is the one the scan returns. *)
Lemma scan_unique_max (l : list crc_metablock_t) : forall k best p r,
  nth_error l p = Some r -> check_crc r = true ->
  (forall j x, nth_error l j = Some x -> check_crc x = true -> j <> p ->
               version x < version r) ->
  (forall i0 b, best = Some (i0, b) -> version b < version r) ->
  scan l k best = Some ((k + p)%nat, r).
Proof.
  induction l as [|x l IH]; intros k best p r Hp Hv Hlt Hbest;
    [destruct p; discriminate|].
  destruct p as [|p]; simpl in Hp |- *.
  - inversion Hp; subst x.
    replace (better best r) with true.
    + rewrite Nat.add_0_r. apply scan_keep.
      intros y Hy Hvy. apply In_nth_error in Hy. destruct Hy as (j & Hj).
      specialize (Hlt (S j) y Hj Hvy ltac:(discriminate)). lia.
    + unfold better. rewrite Hv. destruct best as [[i0 b]|]; [|reflexivity].
      specialize (Hbest i0 b eq_refl). symmetry. apply Z.ltb_lt. exact Hbest.
  - replace (k + S p)%nat with (S k + p)%nat by lia.
    apply IH; auto.
    + intros j y Hj Hvy Hne. apply (Hlt (S j)); auto.
    + intros i0 b Hb. destruct (better best x) eqn:Hbx.
      * inversion Hb; subst. unfold better in Hbx.
        apply andb_true_iff in Hbx. destruct Hbx as [Hvx _].
        apply (Hlt 0%nat); auto; discriminate.
      * apply (Hbest i0). exact Hb.
Qed.

(** The second pass of the recovery scan never changes the candidate. *)
Lemma recover_eq (d : list crc_metablock_t) : recover d = scan d 0 None.
Proof.
  unfold recover. destruct (scan d 0 None) as [[j r]|] eqn:Hs; [|reflexivity].
  apply scan_keep. intros x Hx Hv.
  destruct (scan_max d 0 None j r Hs) as [Hl _]. apply Hl; [|exact Hv].
  rewrite <- (firstn_skipn j d). apply in_or_app. left. exact Hx.
Qed.

Section Writes.
Variables (sizeof_crc_metablock extent_size : Z).
Hypothesis Hsz : 0 < sizeof_crc_metablock.
Hypothesis Hes : sizeof_crc_metablock <= extent_size.

Local Definition nslots : nat :=
  Z.to_nat (MB_NEXTENTS * slots_per_extent sizeof_crc_metablock extent_size).

Lemma write_all_cons (p : list Byte.byte) (ps : list (list Byte.byte)) (m : mgr) :
  write_all sizeof_crc_metablock extent_size (p :: ps) m =
  write_all sizeof_crc_metablock extent_size ps
    (write_metablock sizeof_crc_metablock extent_size p m).
Proof. reflexivity. Qed.

(** One write puts the next version in the slot under the head; every other
    valid slot is then strictly older. *)
Lemma write_step (m : mgr) (p : list Byte.byte) (n : nat) :
  length (disk m) = nslots ->
  head m = head_after sizeof_crc_metablock extent_size n ->
  (forall j x, nth_error (disk m) j = Some x -> check_crc x = true ->
               version x <= mversion m) ->
  INT_MIN <= mversion m < INT_MAX ->
  let m' := write_metablock sizeof_crc_metablock extent_size p m in
  length (disk m') = nslots /\
  head m' = head_after sizeof_crc_metablock extent_size (S n) /\
  mversion m' = mversion m + 1 /\
  exists i,
    nth_error (disk m') i =
      Some (set_crc {| _crc := 0; version := mversion m + 1; metablock := p |}) /\
    (forall j x, nth_error (disk m') j = Some x -> check_crc x = true -> j <> i ->
                 version x < mversion m').
Proof.
  intros Hlen Hhead Hinv Hv m'. subst m'. unfold write_metablock.
  cbn [disk head mversion]. rewrite int_incr_succ by exact Hv.
  set (i := Z.to_nat (ring_index sizeof_crc_metablock extent_size (head m))).
  assert (Hi : (i < length (disk m))%nat).
  { rewrite Hlen. unfold i, nslots. rewrite Hhead.
    pose proof (HeadFacts.ring_index_bound _ _ Hsz Hes n) as Hb.
    unfold HeadFacts.spe in Hb. lia. }
  split; [rewrite set_nth_length; exact Hlen|].
  split; [rewrite Hhead; reflexivity|].
  split; [reflexivity|].
  exists i. split.
  - rewrite nth_error_set_nth by exact Hi. rewrite Nat.eqb_refl. reflexivity.
  - intros j x Hj Hvx Hne. rewrite nth_error_set_nth in Hj by exact Hi.
    apply Nat.eqb_neq in Hne. rewrite Hne in Hj.
    specialize (Hinv j x Hj Hvx). lia.
Qed.

Lemma write_all_inv (ps : list (list Byte.byte)) : forall (m : mgr) (n : nat),
  length (disk m) = nslots ->
  head m = head_after sizeof_crc_metablock extent_size n ->
  (forall j x, nth_error (disk m) j = Some x -> check_crc x = true ->
               version x <= mversion m) ->
  INT_MIN <= mversion m ->
  mversion m + Z.of_nat (length ps) <= INT_MAX ->
  let m' := write_all sizeof_crc_metablock extent_size ps m in
  mversion m' = mversion m + Z.of_nat (length ps) /\
  (ps <> [] ->
   exists i,
     nth_error (disk m') i =
       Some (set_crc {| _crc := 0; version := mversion m'; metablock := last ps [] |}) /\
     (forall j x, nth_error (disk m') j = Some x -> check_crc x = true -> j <> i ->
                  version x < mversion m')).
Proof.
  induction ps as [|p ps IH]; intros m n Hlen Hhead Hinv Hlo Hhi m'; subst m'.
  - split; [simpl; lia|]. intros Hne. exfalso. apply Hne. reflexivity.
  - rewrite write_all_cons. cbn [length] in Hhi. rewrite Nat2Z.inj_succ in Hhi.
    destruct (write_step m p n Hlen Hhead Hinv ltac:(lia))
      as (Hlen1 & Hhead1 & Hver1 & i1 & Hi1 & Hlt1).
    set (m1 := write_metablock sizeof_crc_metablock extent_size p m) in *.
    assert (Hinv1 : forall j x, nth_error (disk m1) j = Some x -> check_crc x = true ->
                                version x <= mversion m1).
    { intros j x Hj Hvx. destruct (Nat.eq_dec j i1) as [->|Hne].
      - rewrite Hi1 in Hj. inversion Hj. cbn [version set_crc]. lia.
      - specialize (Hlt1 j x Hj Hvx Hne). lia. }
    destruct (IH m1 (S n) Hlen1 Hhead1 Hinv1 ltac:(lia) ltac:(lia)) as [Hver Hlast].
    split; [cbn [length]; rewrite Nat2Z.inj_succ; lia|].
    intros _. destruct ps as [|p' ps'].
    + exists i1. cbn [write_all fold_left] in *. unfold write_all. cbn [fold_left].
      rewrite Hver1. split; [exact Hi1|]. rewrite <- Hver1. exact Hlt1.
    + apply Hlast. discriminate.
Qed.

(** What [start] leaves behind: the disk, a head on the ring, and an
    in-memory version no valid slot exceeds. *)
Lemma start_inv (d : list crc_metablock_t) :
  Forall (fun x => INT_MIN <= version x <= INT_MAX) d ->
  let m0 := start sizeof_crc_metablock extent_size d in
  disk m0 = d /\
  (exists n, head m0 = head_after sizeof_crc_metablock extent_size n) /\
  (forall j x, nth_error d j = Some x -> check_crc x = true -> version x <= mversion m0) /\
  INT_MIN <= mversion m0 <= INT_MAX.
Proof.
  intros Hrange m0. subst m0. unfold start. rewrite recover_eq.
  destruct (scan d 0 None) as [[j r]|] eqn:Hs.
  - cbn [disk head mversion]. split; [reflexivity|]. split; [exists (S j); reflexivity|].
    split.
    + intros j' x Hj Hvx. destruct (scan_max d 0 None j r Hs) as [Hl _].
      apply Hl; [eapply nth_error_In; exact Hj | exact Hvx].
    + destruct (scan_origin d 0 None j r Hs) as [Hb|Hin]; [discriminate|].
      rewrite Forall_forall in Hrange. apply Hrange. exact Hin.
  - cbn [disk head mversion]. split; [reflexivity|]. split; [exists 0%nat; reflexivity|].
    split.
    + intros j' x Hj Hvx. destruct (scan_none d 0 None Hs) as [_ Hl].
      rewrite (Hl x (nth_error_In _ _ Hj)) in Hvx. discriminate.
    + unfold INT_MIN, INT_MAX. lia.
Qed.

End Writes.

End RingFacts.

(* ------------------------------------------------------------------------- *)
(** ** The object representation *)

Module LayoutFacts.
Import Metablock Layout.

Lemma byte_val_byte_of_Z (v : Z) : byte_val (byte_of_Z v) = v mod 256.
Proof.
  unfold byte_val, byte_of_Z.
  pose proof (Z.mod_pos_bound v 256 ltac:(lia)) as Hb.
  destruct (Byte.of_N (Z.to_N (v mod 256))) as [b|] eqn:E.
  - apply Byte.to_of_N in E. rewrite E. apply Z2N.id. lia.
  - apply Byte.of_N_None_iff in E. lia.
Qed.

Lemma mod_256_mul (v m : Z) : 0 < m ->
  v mod (256 * m) = v mod 256 + 256 * ((v / 256) mod m).
Proof.
  intros Hm. symmetry. apply (Z.mod_unique _ _ ((v / 256) / m)).
  - left. pose proof (Z.mod_pos_bound v 256 ltac:(lia)).
    pose proof (Z.mod_pos_bound (v / 256) m Hm). nia.
  - pose proof (Z.div_mod v 256 ltac:(lia)).
    pose proof (Z.div_mod (v / 256) m ltac:(lia)). nia.
Qed.

Lemma le_bytes_length (n : nat) : forall v, length (le_bytes n v) = n.
Proof. induction n as [|n IH]; intros v; cbn [le_bytes length]; [|rewrite IH]; reflexivity. Qed.

(** Reading back [n] little-endian bytes yields the value modulo [2^(8n)]. *)
Lemma le_value_le_bytes (n : nat) : forall v,
  le_value (le_bytes n v) = v mod 2 ^ (8 * Z.of_nat n).
Proof.
  induction n as [|n IH]; intros v.
  - cbn [le_bytes le_value]. rewrite Z.mul_0_r, Z.pow_0_r, Z.mod_1_r. reflexivity.
  - cbn [le_bytes le_value]. rewrite IH, byte_val_byte_of_Z, Z.shiftr_div_pow2 by lia.
    replace (2 ^ (8 * Z.of_nat (S n))) with (256 * 2 ^ (8 * Z.of_nat n)).
    + rewrite mod_256_mul by (apply Z.pow_pos_nonneg; lia). reflexivity.
    + rewrite Nat2Z.inj_succ, Z.mul_succ_r, Z.pow_add_r by lia. lia.
Qed.

(** The [version] bytes sit at offset 4, after the 4 CRC bytes. *)
Lemma version_bytes (r : crc_metablock_t) :
  firstn sizeof_int (skipn offsetof_version (encode_record r)) =
  le_bytes sizeof_int (version r).
Proof.
  unfold encode_record.
  rewrite skipn_app, le_bytes_length, Nat.sub_diag. cbn [skipn].
  rewrite (skipn_all2 (le_bytes sizeof_uint32_t (_crc r)))
    by (rewrite le_bytes_length; reflexivity).
  cbn [app]. rewrite firstn_app, le_bytes_length, Nat.sub_diag. cbn [firstn].
  rewrite app_nil_r. apply firstn_all2. rewrite le_bytes_length. reflexivity.
Qed.

Lemma decode_version_encode (r : crc_metablock_t) :
  decode_version (encode_record r) = int_of_u32 (version r mod 2 ^ 32).
Proof.
  unfold decode_version. rewrite version_bytes, le_value_le_bytes. reflexivity.
Qed.

Lemma int_of_u32_mod (v : Z) : INT_MIN <= v <= INT_MAX -> int_of_u32 (v mod 2 ^ 32) = v.
Proof.
  unfold INT_MIN, INT_MAX, int_of_u32. intros Hv.
  destruct (Z.leb_spec 0 v).
  - rewrite Z.mod_small by lia. destruct (Z.ltb_spec v (2 ^ 31)); lia.
  - rewrite <- (Z.mod_unique v (2 ^ 32) (-1) (v + 2 ^ 32)) by lia.
    destruct (Z.ltb_spec (v + 2 ^ 32) (2 ^ 31)); lia.
Qed.

Lemma int_incr_max : int_incr INT_MAX = INT_MIN.
Proof. reflexivity. Qed.

End LayoutFacts.

(* ------------------------------------------------------------------------- *)
(** ** The thread pool *)

Module ThreadPoolFacts.
Import ThreadPool.

Lemma pool_eta (p : linux_thread_pool_t) :
  {| interrupt_message := interrupt_message p; generic_blocker_pool := generic_blocker_pool p;
     n_threads := n_threads p; threads := threads p; do_shutdown := do_shutdown p;
     shutdown_mutex_locked := shutdown_mutex_locked p;
     shutdown_cond_signals := shutdown_cond_signals p;
     do_set_affinity := do_set_affinity p |} = p.
Proof. destruct p; reflexivity. Qed.

(** With no message stored, the handler changes nothing. *)
Lemma interrupt_handler_idle (p : linux_thread_pool_t) :
  interrupt_message p = None -> interrupt_handler p = Some p.
Proof.
  intros H. unfold interrupt_handler, set_interrupt_message. rewrite H.
  rewrite <- H, pool_eta. reflexivity.
Qed.

Lemma interrupt_handler_n_idle (k : nat) : forall p,
  interrupt_message p = None -> interrupt_handler_n k p = Some p.
Proof.
  induction k as [|k IH]; intros p H; [reflexivity|].
  cbn [interrupt_handler_n]. rewrite interrupt_handler_idle by exact H. apply IH, H.
Qed.

Lemma interrupt_handler_n_S (k : nat) (p : linux_thread_pool_t) :
  interrupt_handler_n (S k) p =
  match interrupt_handler p with
  | Some p' => interrupt_handler_n k p'
  | None => None
  end.
Proof. reflexivity. Qed.

(** With a message stored and the utility thread running, the first signal
    posts it there and clears the stored pointer. *)
Lemma interrupt_handler_post (p : linux_thread_pool_t) (m : msg) (t : linux_thread_t) :
  interrupt_message p = Some m ->
  nth_error (threads p) (Z.to_nat (utility_thread p)) = Some (Some t) ->
  interrupt_handler p =
  Some {| interrupt_message := None; generic_blocker_pool := generic_blocker_pool p;
          n_threads := n_threads p;
          threads := Ring.set_nth (threads p) (Z.to_nat (utility_thread p))
                       (Some {| external_messages := external_messages t ++ [m];
                                thread_do_shutdown := thread_do_shutdown t;
                                shutdown_notified := shutdown_notified t |});
          do_shutdown := do_shutdown p; shutdown_mutex_locked := shutdown_mutex_locked p;
          shutdown_cond_signals := shutdown_cond_signals p;
          do_set_affinity := do_set_affinity p |}.
Proof.
  intros Hm Ht. unfold interrupt_handler, set_interrupt_message. rewrite Hm.
  unfold insert_external_message. cbn [threads n_threads].
  unfold utility_thread in Ht. rewrite Ht. reflexivity.
Qed.

Lemma start_thread_pre_pool (init : option msg) (i : Z) (p : linux_thread_pool_t) :
  generic_blocker_pool (start_thread_pre (tdata_initial_message init i) i p) =
  match init with
  | Some _ => if i =? 0 then Some 0 else generic_blocker_pool p
  | None => generic_blocker_pool p
  end.
Proof.
  unfold start_thread_pre, tdata_initial_message.
  destruct (Z.eqb_spec i 0) as [->|]; destruct init; reflexivity.
Qed.

(** After the pre-barrier phase, the pool was built by thread zero exactly
    when thread zero ran and had an initial message. *)
Lemma startup_pre_pool (init : option msg) (order : list Z) : forall p,
  generic_blocker_pool (startup_pre init order p) =
  if existsb (fun i => i =? 0) order
  then match init with Some _ => Some 0 | None => generic_blocker_pool p end
  else generic_blocker_pool p.
Proof.
  unfold startup_pre.
  induction order as [|i order IH]; intros p; [reflexivity|].
  cbn [fold_left existsb]. rewrite IH, start_thread_pre_pool.
  destruct (Z.eqb_spec i 0); destruct init; cbn [orb];
    destruct (existsb (fun i => i =? 0) order); reflexivity.
Qed.

Lemma in_zseq (n i : Z) : In i (zseq n) <-> 0 <= i < n.
Proof.
  unfold zseq. rewrite in_map_iff. split.
  - intros (k & <- & Hk). apply in_seq in Hk. lia.
  - intros Hi. exists (Z.to_nat i). split; [lia|]. apply in_seq. lia.
Qed.

Lemma zseq_length (n : Z) : length (zseq n) = Z.to_nat n.
Proof. unfold zseq. rewrite length_map, length_seq. reflexivity. Qed.

Lemma start_thread_program_waits (b : bool) : count_waits (start_thread_program b) = 2%nat.
Proof. destruct b; reflexivity. Qed.

Lemma start_thread_program_construct (b : bool) :
  In ConstructWorker (before_first_wait (start_thread_program b)).
Proof. destruct b; cbn; auto. Qed.

Lemma before_first_wait_app (l1 l2 : list action) :
  filter is_wait l1 = [] -> before_first_wait (l1 ++ l2) = l1 ++ before_first_wait l2.
Proof.
  induction l1 as [|a l1 IH]; [reflexivity|]. cbn [filter app before_first_wait].
  destruct (is_wait a); [discriminate|]. intros H. rewrite IH by exact H. reflexivity.
Qed.

Lemma after_first_wait_app (l1 l2 : list action) :
  filter is_wait l1 = [] -> after_first_wait (l1 ++ l2) = after_first_wait l2.
Proof.
  induction l1 as [|a l1 IH]; [reflexivity|]. cbn [filter app after_first_wait].
  destruct (is_wait a); [discriminate|]. exact IH.
Qed.

Lemma spawns_no_wait (aff : bool) (l : list Z) :
  filter is_wait (flat_map (fun i => SpawnThread i :: (if aff then [SetAffinity i] else [])) l)
  = [].
Proof. induction l as [|i l IH]; [reflexivity|]. destruct aff; exact IH. Qed.

Lemma spawns_count (aff : bool) (l : list Z) :
  length (filter is_spawn
    (flat_map (fun i => SpawnThread i :: (if aff then [SetAffinity i] else [])) l))
  = length l.
Proof. induction l as [|i l IH]; [reflexivity|]. destruct aff; cbn; rewrite IH; reflexivity. Qed.

Lemma map_no_wait (f : Z -> action) (l : list Z) :
  (forall i, is_wait (f i) = false) -> filter is_wait (map f l) = [].
Proof.
  intros Hf. induction l as [|i l IH]; [reflexivity|]. cbn. rewrite Hf. exact IH.
Qed.

Lemma map_no_spawn (f : Z -> action) (l : list Z) :
  (forall i, is_spawn (f i) = false) -> filter is_spawn (map f l) = [].
Proof.
  intros Hf. induction l as [|i l IH]; [reflexivity|]. cbn. rewrite Hf. exact IH.
Qed.

Lemma run_thread_pool_waits (p : linux_thread_pool_t) :
  count_waits (run_thread_pool_program p) = 2%nat.
Proof.
  unfold count_waits, run_thread_pool_program.
  rewrite !filter_app, spawns_no_wait, !map_no_wait by reflexivity. reflexivity.
Qed.

Lemma run_thread_pool_spawns (p : linux_thread_pool_t) :
  length (filter is_spawn (run_thread_pool_program p)) = Z.to_nat (n_threads p).
Proof.
  unfold run_thread_pool_program.
  rewrite !filter_app, !length_app, spawns_count, !map_no_spawn by reflexivity.
  rewrite zseq_length. cbn. lia.
Qed.

(** The main thread spawns every thread before its first wait, and tells
    every thread to shut down between its two waits. *)
Lemma run_thread_pool_phases (p : linux_thread_pool_t) (i : Z) :
  In i (zseq (n_threads p)) ->
  In (SpawnThread i) (before_first_wait (run_thread_pool_program p)) /\
  In (InitiateShutDown i) (before_first_wait (after_first_wait (run_thread_pool_program p))).
Proof.
  intros Hi. unfold run_thread_pool_program.
  split.
  - rewrite (before_first_wait_app [ResetDoShutdown; InitBarrier (barrier_arity p)])
      by reflexivity.
    rewrite before_first_wait_app by apply spawns_no_wait.
    apply in_or_app. right. apply in_or_app. left.
    apply in_flat_map. exists i. split; [exact Hi | left; reflexivity].
  - rewrite (after_first_wait_app [ResetDoShutdown; InitBarrier (barrier_arity p)])
      by reflexivity.
    rewrite after_first_wait_app by apply spawns_no_wait.
    cbn [app after_first_wait before_first_wait is_wait].
    rewrite before_first_wait_app by (apply map_no_wait; reflexivity).
    right. right. right. apply in_or_app. left. apply in_map, Hi.
Qed.

(** A cyclic barrier of arity [a] after [k] waits. *)
Lemma barrier_after_spec (a : Z) (k : nat) : 1 <= a ->
  barrier_after a k = {| waiting := Z.of_nat k mod a; generation := Z.of_nat k / a |}.
Proof.
  intros Ha. induction k as [|k IH].
  - cbn [barrier_after Nat.iter barrier_init Z.of_nat]. rewrite Z.mod_0_l, Z.div_0_l by lia. reflexivity.
  - unfold barrier_after in *. rewrite Nat.iter_succ. rewrite IH. unfold barrier_wait.
    cbn [waiting generation]. rewrite Nat2Z.inj_succ.
    pose proof (Z.mod_pos_bound (Z.of_nat k) a ltac:(lia)) as Hb.
    pose proof (Z.div_mod (Z.of_nat k) a ltac:(lia)) as Hd.
    destruct (Z.eqb_spec (Z.of_nat k mod a + 1) a) as [He|Hn].
    + f_equal.
      * apply (Z.mod_unique _ _ (Z.of_nat k / a + 1)); [left; lia | nia].
      * apply (Z.div_unique _ _ _ 0); [left; lia | nia].
    + f_equal.
      * apply (Z.mod_unique _ _ (Z.of_nat k / a)); [left; lia | nia].
      * apply (Z.div_unique _ _ _ (Z.of_nat k mod a + 1)); [left; lia | nia].
Qed.

Lemma participants_length (init : option msg) (p : linux_thread_pool_t) :
  length (participants init p) = S (Z.to_nat (n_threads p)).
Proof. unfold participants. cbn [length]. rewrite length_map, zseq_length. reflexivity. Qed.

Lemma participants_waits (init : option msg) (p : linux_thread_pool_t) :
  Forall (fun prog => count_waits prog = 2%nat) (participants init p).
Proof.
  unfold participants. constructor; [apply run_thread_pool_waits|].
  apply Forall_map, Forall_forall. intros i _. apply start_thread_program_waits.
Qed.

Lemma sum_waits (ls : list (list action)) :
  Forall (fun prog => count_waits prog = 2%nat) ls ->
  fold_right (fun prog acc => (count_waits prog + acc)%nat) 0%nat ls = (2 * length ls)%nat.
Proof.
  induction 1 as [|l ls Hl _ IH]; [reflexivity|]. cbn [fold_right length].
  rewrite Hl, IH. lia.
Qed.

Lemma exec_ops_cons (o : pool_op) (os : list pool_op) (p : linux_thread_pool_t) :
  exec_ops (o :: os) p =
  match exec_op o p with
  | Some p' => match exec_ops os p' with
               | Some (tr, q) => Some ((o, p) :: tr, q)
               | None => None
               end
  | None => None
  end.
Proof. reflexivity. Qed.

End ThreadPoolFacts.

(* ========================================================================= *)
(** * The specification's claims *)

Module MetablockClaims.
Import Metablock Layout Head Ring Examples.

(** C1 (amended): a record is valid iff its stored [_crc] equals the CRC
    recomputed over its payload; and on a ring whose records hold [int]
    versions, after [start] and then [write_metablock] with payloads
    P1..Pk (k >= 1), provided the recovered version v0 satisfies
    v0 + k <= INT_MAX, recovery selects the record holding Pk, with version
    v0 + k, the unique valid slot with the largest version. *)
Theorem recovery_selects_last_write (sz es : Z) (d : list crc_metablock_t)
    (ps : list (list Byte.byte)) :
  0 < sz -> sz <= es ->
  length d = Z.to_nat (MB_NEXTENTS * slots_per_extent sz es) ->
  Forall (fun x => INT_MIN <= version x <= INT_MAX) d ->
  ps <> [] ->
  mversion (start sz es d) + Z.of_nat (length ps) <= INT_MAX ->
  (forall r, check_crc r = true <-> _crc r = crc r) /\
  exists i r,
    recover (disk (write_all sz es ps (start sz es d))) = Some (i, r) /\
    nth_error (disk (write_all sz es ps (start sz es d))) i = Some r /\
    check_crc r = true /\
    metablock r = last ps [] /\
    version r = mversion (start sz es d) + Z.of_nat (length ps) /\
    (forall j x, nth_error (disk (write_all sz es ps (start sz es d))) j = Some x ->
                 check_crc x = true -> j <> i -> version x < version r).
Proof.
  intros Hsz Hes Hlen Hrange Hne Hhi.
  split; [intros r; unfold check_crc; apply Z.eqb_eq|].
  destruct (RingFacts.start_inv sz es d Hrange) as (Hd & [n Hh] & Hinv & Hlo & _).
  assert (Hlen0 : length (disk (start sz es d)) = RingFacts.nslots sz es)
    by (rewrite Hd; exact Hlen).
  assert (Hinv0 : forall j x, nth_error (disk (start sz es d)) j = Some x ->
                             check_crc x = true -> version x <= mversion (start sz es d))
    by (intros j x; rewrite Hd; apply Hinv).
  destruct (RingFacts.write_all_inv sz es Hsz Hes ps (start sz es d) n Hlen0 Hh Hinv0
              ltac:(lia) Hhi) as [Hver Hlast].
  destruct (Hlast Hne) as (i & Hi & Hlt).
  set (m := write_all sz es ps (start sz es d)) in *.
  set (r := set_crc {| _crc := 0; version := mversion m; metablock := last ps [] |}) in *.
  exists i, r.
  assert (Hv : version r = mversion m) by reflexivity.
  split.
  - rewrite RingFacts.recover_eq.
    apply (RingFacts.scan_unique_max (disk m) 0 None i r Hi).
    + apply MetablockFacts.set_crc_check.
    + rewrite Hv. exact Hlt.
    + intros i0 b Hb. discriminate.
  - split; [exact Hi|]. split; [apply MetablockFacts.set_crc_check|].
    split; [reflexivity|]. split; [rewrite Hv; exact Hver|].
    rewrite Hv. exact Hlt.
Qed.

Lemma recovery_selects_last_write_witness :
  exists i r,
    recover (disk (write_all 1 1 [[Byte.x42]] (start 1 1 [recBad; recBad]))) = Some (i, r) /\
    metablock r = [Byte.x42].
Proof.
  destruct (recovery_selects_last_write 1 1 [recBad; recBad] [[Byte.x42]]
              ltac:(lia) ltac:(lia) ltac:(reflexivity)
              ltac:(repeat constructor; unfold INT_MIN, INT_MAX; cbn; lia)
              ltac:(discriminate)
              ltac:(apply Z.leb_le; vm_compute; reflexivity))
    as [_ (i & r & Hrec & _ & _ & Hmb & _)].
  exists i, r. split; [exact Hrec | exact Hmb].
Defined.

(** C1 counterexample: a valid slot holding version INT_MAX and an invalid
    one; writing the payload [0x42] stores version INT_MAX + 1 = INT_MIN, and
    recovery then selects the old slot, payload [0x41], not the write. *)
Lemma recovery_after_version_overflow :
  check_crc recA = true /\ check_crc recBad = false /\
  mversion (write_all 1 1 [[Byte.x42]] (start 1 1 [recA; recBad])) = INT_MIN /\
  recover (disk (write_all 1 1 [[Byte.x42]] (start 1 1 [recA; recBad]))) = Some (0%nat, recA) /\
  metablock recA = [Byte.x41].
Proof. vm_compute. repeat split. Qed.

(** C2: [crc()] is boost's [crc_optimal<32, 0x04C11DB7, 0xFFFFFFFF,
    0xFFFFFFFF, true, true>] over the payload bytes, which equals the
    textbook reflected CRC-32 (polynomial 0xEDB88320 = reflect 0x04C11DB7,
    initial value and final XOR 0xFFFFFFFF) of the payload; neither [_crc]
    nor [version] contributes; [set_crc] stores and [check_crc] compares
    that value; and the check value of 123456789 is 0xCBF43926. *)
Theorem crc_is_standard_crc32 :
  Crc32Spec.poly_reflected = BoostCrc.reflect 32 0x04C11DB7 /\
  (forall r, crc r = Crc32Spec.crc32 (map byte_val (metablock r))) /\
  (forall r c v, crc {| _crc := c; version := v; metablock := metablock r |} = crc r) /\
  (forall r, _crc (set_crc r) = Crc32Spec.crc32 (map byte_val (metablock r))) /\
  (forall r, check_crc r = (_crc r =? Crc32Spec.crc32 (map byte_val (metablock r)))) /\
  crc {| _crc := 0; version := 0; metablock := check_input |} = 0xCBF43926.
Proof.
  split; [apply CrcFacts.poly_reflected_eq|].
  split; [apply MetablockFacts.crc_eq_crc32|].
  split; [apply MetablockFacts.crc_payload_only|].
  split; [intros r; apply MetablockFacts.crc_eq_crc32|].
  split; [intros r; unfold check_crc; rewrite MetablockFacts.crc_eq_crc32; reflexivity|].
  vm_compute. reflexivity.
Qed.

(** C3 (amended): [version] is a C++ [int]: 4 bytes, little-endian, at
    offset 4 after the 4-byte [_crc]; every value in [INT_MIN, INT_MAX]
    reads back unchanged; a write stores the previous version plus one,
    which is larger only while the previous one is below INT_MAX
    (INT_MAX + 1 wraps to INT_MIN). *)
Theorem version_is_int32 (r : crc_metablock_t) :
  INT_MIN <= version r <= INT_MAX ->
  offsetof_version = 4%nat /\ sizeof_int = 4%nat /\
  firstn sizeof_int (skipn offsetof_version (encode_record r)) = le_bytes 4 (version r) /\
  decode_version (encode_record r) = version r /\
  (version r < INT_MAX -> int_incr (version r) = version r + 1) /\
  int_incr INT_MAX = INT_MIN.
Proof.
  intros Hv.
  split; [reflexivity|]. split; [reflexivity|].
  split; [apply LayoutFacts.version_bytes|].
  split; [rewrite LayoutFacts.decode_version_encode; apply LayoutFacts.int_of_u32_mod, Hv|].
  split; [intros Hlt; apply RingFacts.int_incr_succ; lia|].
  apply LayoutFacts.int_incr_max.
Qed.

Lemma version_is_int32_witness :
  decode_version (encode_record recBad) = version recBad.
Proof.
  destruct (version_is_int32 recBad ltac:(unfold INT_MIN, INT_MAX; cbn; lia))
    as (_ & _ & _ & H & _). exact H.
Defined.

(** C3 counterexample: a record whose version is 2^32, a 64-bit value,
    reads back as 0, as only 4 bytes hold it; and one increment past
    INT_MAX decreases the version. *)
Lemma version_field_is_32bit :
  decode_version (encode_record {| _crc := 0; version := 2 ^ 32; metablock := [] |}) = 0 /\
  2 ^ 32 <> 0 /\
  int_incr INT_MAX < INT_MAX.
Proof.
  split; [vm_compute; reflexivity|]. split; [lia|].
  rewrite LayoutFacts.int_incr_max. unfold INT_MIN, INT_MAX. lia.
Qed.

(** C6: for a cursor reached from [head_t()] by [n] increments, with
    [0 < sizeof(crc_metablock_t) <= extent_size]: [MB_NEXTENTS = 2],
    [MB_EXTENT_SEPERATION = 4]; [offset()] is [static_header_size +
    (extent * MB_EXTENT_SEPERATION) * extent_size + mb_slot *
    sizeof(crc_metablock_t)]; an increment at the last slot goes to slot 0
    of the next extent modulo [MB_NEXTENTS], otherwise to the next slot of
    the same extent; the slot is [n mod slots_per_extent], the extent
    [(n / slots_per_extent) mod 2], and [wraparound] holds exactly from the
    first return to slot 0 of extent 0 on ([n >= 2 * slots_per_extent]). *)
Theorem head_offset_and_advance (shs sz es : Z) (n : nat) :
  0 < sz -> sz <= es ->
  MB_NEXTENTS = 2 /\ MB_EXTENT_SEPERATION = 4 /\
  offset shs sz es (head_after sz es n) =
    shs + (extent (head_after sz es n) * MB_EXTENT_SEPERATION) * es
    + mb_slot (head_after sz es n) * sz /\
  (mb_slot (head_after sz es n) + 1 = slots_per_extent sz es ->
     mb_slot (head_incr sz es (head_after sz es n)) = 0 /\
     extent (head_incr sz es (head_after sz es n)) =
       (extent (head_after sz es n) + 1) mod MB_NEXTENTS) /\
  (mb_slot (head_after sz es n) + 1 <> slots_per_extent sz es ->
     mb_slot (head_incr sz es (head_after sz es n)) = mb_slot (head_after sz es n) + 1 /\
     extent (head_incr sz es (head_after sz es n)) = extent (head_after sz es n)) /\
  mb_slot (head_after sz es n) = Z.of_nat n mod slots_per_extent sz es /\
  extent (head_after sz es n) = (Z.of_nat n / slots_per_extent sz es) mod MB_NEXTENTS /\
  wraparound (head_after sz es n) = (MB_NEXTENTS * slots_per_extent sz es <=? Z.of_nat n).
Proof.
  intros Hsz Hes.
  destruct (HeadFacts.head_after_geometry sz es Hsz Hes n) as (Hs & He & Hw & _).
  split; [reflexivity|]. split; [reflexivity|]. split; [reflexivity|].
  split.
  { intros Heq. unfold head_incr. rewrite Heq, Z.eqb_refl. split; reflexivity. }
  split.
  { intros Hne. unfold head_incr. apply Z.eqb_neq in Hne. rewrite Hne. split; reflexivity. }
  exact (conj Hs (conj He Hw)).
Qed.

Lemma head_offset_and_advance_witness :
  wraparound (head_after 1 3 7) = (MB_NEXTENTS * slots_per_extent 1 3 <=? 7).
Proof.
  destruct (head_offset_and_advance 0 1 3 7 ltac:(lia) ltac:(lia))
    as (_ & _ & _ & _ & _ & _ & _ & H). exact H.
Defined.

(** C9: [set_crc()] followed by [check_crc()] gives true, and changing only
    the [version] field does not change [check_crc()]. *)
Theorem set_crc_then_check (r : crc_metablock_t) :
  check_crc (set_crc r) = true /\
  (forall v, check_crc {| _crc := _crc r; version := v; metablock := metablock r |} =
             check_crc r).
Proof.
  split; [apply MetablockFacts.set_crc_check|].
  intros v. unfold check_crc. rewrite MetablockFacts.crc_payload_only. reflexivity.
Qed.

End MetablockClaims.

Module SegvFacts.
Import ThreadPool.

Lemma startup_segv_action (order : list Z) : forall st,
  segv_action (startup_segv order st) =
  match order with
  | [] => segv_action st
  | _ :: _ => Some (sa_flags start_thread_segv_setup, Sigsegv_handler)
  end.
Proof.
  unfold startup_segv.
  induction order as [|i order IH]; intros st; [reflexivity|].
  cbn [fold_left]. rewrite IH. destruct order; reflexivity.
Qed.

Lemma startup_segv_altstack (order : list Z) (i : Z) : forall st,
  altstack_of i (altstacks (startup_segv order st)) =
  if existsb (Z.eqb i) order
  then Some (ss_flags start_thread_segv_setup, ss_size start_thread_segv_setup)
  else altstack_of i (altstacks st).
Proof.
  unfold startup_segv.
  induction order as [|j order IH]; intros st; [reflexivity|].
  cbn [fold_left existsb]. rewrite IH.
  destruct (existsb (Z.eqb i) order); [rewrite orb_true_r; reflexivity|].
  rewrite orb_false_r. cbn [start_thread_segv altstacks altstack_of].
  destruct (i =? j); reflexivity.
Qed.

End SegvFacts.

Module ThreadPoolClaims.
Import ThreadPool.

(** C4: with a message stored and the utility thread [n_threads - 1]
    registered, [N >= 1] runs of [interrupt_handler] post the message exactly
    once, onto that thread, leave the stored pointer [NULL] and every other
    thread as it was; the handler swaps the pointer to [NULL] and posts
    nothing when it was [NULL]. *)
Theorem interrupt_delivered_once (N : nat) (p : linux_thread_pool_t) (m : msg)
    (t : linux_thread_t) :
  (1 <= N)%nat ->
  interrupt_message p = Some m ->
  nth_error (threads p) (Z.to_nat (utility_thread p)) = Some (Some t) ->
  (forall q, interrupt_message q = None -> interrupt_handler q = Some q) /\
  exists p', interrupt_handler_n N p = Some p' /\
    interrupt_message p' = None /\
    n_threads p' = n_threads p /\
    nth_error (threads p') (Z.to_nat (utility_thread p)) =
      Some (Some {| external_messages := external_messages t ++ [m];
                    thread_do_shutdown := thread_do_shutdown t;
                    shutdown_notified := shutdown_notified t |}) /\
    (forall j, j <> Z.to_nat (utility_thread p) ->
               nth_error (threads p') j = nth_error (threads p) j).
Proof.
  intros HN Hm Ht.
  split; [apply ThreadPoolFacts.interrupt_handler_idle|].
  destruct N as [|N]; [lia|].
  assert (Hlt : (Z.to_nat (utility_thread p) < length (threads p))%nat).
  { apply nth_error_Some. rewrite Ht. discriminate. }
  rewrite ThreadPoolFacts.interrupt_handler_n_S,
    (ThreadPoolFacts.interrupt_handler_post p m t Hm Ht).
  rewrite ThreadPoolFacts.interrupt_handler_n_idle by reflexivity.
  eexists. split; [reflexivity|]. cbn [interrupt_message n_threads threads].
  split; [reflexivity|]. split; [reflexivity|].
  split.
  - rewrite RingFacts.nth_error_set_nth by exact Hlt. rewrite Nat.eqb_refl. reflexivity.
  - intros j Hj. rewrite RingFacts.nth_error_set_nth by exact Hlt.
    apply Nat.eqb_neq in Hj. rewrite Hj. reflexivity.
Qed.

Lemma interrupt_delivered_once_witness :
  exists p', interrupt_handler_n 3
    {| interrupt_message := Some 7%nat; generic_blocker_pool := Some 0; n_threads := 2;
       threads := [Some fresh_thread; Some fresh_thread]; do_shutdown := false;
       shutdown_mutex_locked := false; shutdown_cond_signals := 0%nat;
       do_set_affinity := false |} = Some p' /\
    nth_error (threads p') 1 = Some (Some {| external_messages := [7%nat];
                                             thread_do_shutdown := false;
                                             shutdown_notified := 0%nat |}).
Proof.
  destruct (interrupt_delivered_once 3
    {| interrupt_message := Some 7%nat; generic_blocker_pool := Some 0; n_threads := 2;
       threads := [Some fresh_thread; Some fresh_thread]; do_shutdown := false;
       shutdown_mutex_locked := false; shutdown_cond_signals := 0%nat;
       do_set_affinity := false |} 7%nat fresh_thread
    ltac:(lia) ltac:(reflexivity) ltac:(reflexivity))
    as [_ (p' & Hrun & _ & _ & Hu & _)].
  exists p'. split; [exact Hrun | exact Hu].
Defined.

(** C5 (amended): whatever order the threads' start-up code runs in, the
    generic blocker pool is built before the first barrier by thread 0, the
    thread handed [run_thread_pool]'s initial message, and only when that
    message is non-[NULL]; thread 0 is not the utility thread
    ([n_threads - 1 = N_workers]). So every thread sees a non-[NULL] pool
    after the barrier exactly when the initial message is non-[NULL]. *)
Theorem blocker_pool_built_by_thread_zero (N : Z) (aff : bool) (init : option msg)
    (order : list Z) :
  1 <= N ->
  Permutation order (zseq (n_threads (construct N aff))) ->
  generic_blocker_pool (startup_pre init order (construct N aff)) =
    match init with Some _ => Some 0 | None => None end /\
  utility_thread (construct N aff) = N /\
  utility_thread (construct N aff) <> 0.
Proof.
  intros HN Hperm.
  assert (H0 : In 0 order).
  { apply (Permutation_in _ (Permutation_sym Hperm)). apply ThreadPoolFacts.in_zseq.
    cbn [construct n_threads]. lia. }
  assert (Hex : existsb (fun i => i =? 0) order = true).
  { apply existsb_exists. exists 0. split; [exact H0 | reflexivity]. }
  rewrite ThreadPoolFacts.startup_pre_pool, Hex.
  unfold utility_thread. cbn [construct n_threads generic_blocker_pool].
  split; [destruct init; reflexivity|]. lia.
Qed.

Lemma blocker_pool_built_by_thread_zero_witness :
  generic_blocker_pool (startup_pre (Some 5%nat) [1; 0] (construct 1 false)) = Some 0.
Proof.
  destruct (blocker_pool_built_by_thread_zero 1 false (Some 5%nat) [1; 0]
              ltac:(lia) ltac:(vm_compute; apply perm_swap)) as [H _].
  exact H.
Defined.

(** C5 counterexample: with one worker, thread 0 builds the pool and the
    utility thread is thread 1. *)
Lemma blocker_pool_not_built_by_utility :
  generic_blocker_pool (startup_pre (Some 0%nat) [0; 1] (construct 1 false)) = Some 0 /\
  utility_thread (construct 1 false) = 1.
Proof. split; reflexivity. Qed.

(** C7: [linux_thread_pool_t(N, affinity)] with [N >= 1] has [N + 1]
    threads and [run_thread_pool] creates that many; the barrier has arity
    [N + 1 + 1], which is the number of participants (the main thread and
    every spawned thread); each participant waits on it exactly twice;
    every thread constructs its [linux_thread_t] before its first wait; the
    main thread creates all threads before its first wait and initiates
    every thread's shut-down between its two waits; all the waits complete
    exactly two barrier rounds. *)
Theorem barrier_used_twice (N : Z) (aff : bool) (init : option msg) :
  1 <= N ->
  n_threads (construct N aff) = N + 1 /\
  length (filter is_spawn (run_thread_pool_program (construct N aff))) = Z.to_nat (N + 1) /\
  barrier_arity (construct N aff) = N + 1 + 1 /\
  Z.of_nat (length (participants init (construct N aff))) = barrier_arity (construct N aff) /\
  Forall (fun prog => count_waits prog = 2%nat) (participants init (construct N aff)) /\
  Forall (fun prog => In ConstructWorker (before_first_wait prog))
    (tl (participants init (construct N aff))) /\
  (forall i, 0 <= i < n_threads (construct N aff) ->
     In (SpawnThread i) (before_first_wait (run_thread_pool_program (construct N aff))) /\
     In (InitiateShutDown i)
        (before_first_wait (after_first_wait (run_thread_pool_program (construct N aff))))) /\
  barrier_after (barrier_arity (construct N aff))
    (fold_right (fun prog acc => (count_waits prog + acc)%nat) 0%nat
       (participants init (construct N aff))) =
    {| waiting := 0; generation := 2 |}.
Proof.
  intros HN.
  split; [reflexivity|].
  split; [apply ThreadPoolFacts.run_thread_pool_spawns|].
  split; [reflexivity|].
  split; [rewrite ThreadPoolFacts.participants_length; unfold barrier_arity;
          cbn [construct n_threads]; lia|].
  split; [apply ThreadPoolFacts.participants_waits|].
  split.
  { cbn [participants tl]. apply Forall_map, Forall_forall. intros i _.
    apply ThreadPoolFacts.start_thread_program_construct. }
  split.
  { intros i Hi. apply ThreadPoolFacts.run_thread_pool_phases, ThreadPoolFacts.in_zseq, Hi. }
  rewrite ThreadPoolFacts.sum_waits by apply ThreadPoolFacts.participants_waits.
  rewrite ThreadPoolFacts.participants_length.
  unfold barrier_arity. cbn [construct n_threads].
  rewrite ThreadPoolFacts.barrier_after_spec by lia.
  replace (Z.of_nat (2 * S (Z.to_nat (N + 1)))) with (2 * (N + 1 + 1)) by lia.
  f_equal.
  - symmetry. apply (Z.mod_unique _ _ 2); [left|]; lia.
  - symmetry. apply (Z.div_unique _ _ _ 0); [left|]; lia.
Qed.

Lemma barrier_used_twice_witness :
  barrier_arity (construct 3 true) = 5 /\
  count_waits (run_thread_pool_program (construct 3 true)) = 2%nat.
Proof.
  destruct (barrier_used_twice 3 true (Some 0%nat) ltac:(lia))
    as (_ & _ & Ha & _ & Hw & _).
  split; [exact Ha|]. inversion Hw as [|x l Hmain _ Hx]. exact Hmain.
Defined.

(** C8 (amended; non-VALGRIND build): after the workers [0 .. N] have run
    the start of [start_thread], in any order, [sigsegv_handler] is the
    process's [SIGSEGV] handler; a [SIGSEGV] on a worker runs it on that
    worker's alternate stack, one on the main thread ([thread_id = -1],
    which never calls [sigaltstack]) on the interrupted stack. The handler
    reports a coroutine stack overflow when [is_coroutine_stack_overflow]
    holds for the faulting address and the address otherwise, and every
    invocation ends in [crash()], never by returning. *)
Theorem sigsegv_on_altstack_and_crashes (N : Z) (order : list Z)
    (is_coroutine_stack_overflow : Z -> bool) :
  0 <= N -> Permutation order (zseq (N + 1)) ->
  (forall i, 0 <= i <= N ->
     segv_delivery (startup_segv order sigstate_init) i =
       Some (Sigsegv_handler, AlternateStack)) /\
  segv_delivery (startup_segv order sigstate_init) (-1) =
    Some (Sigsegv_handler, InterruptedStack) /\
  (forall addr, sigsegv_handler is_coroutine_stack_overflow SIGSEGV addr =
     if is_coroutine_stack_overflow addr then Crash CallstackOverflow
     else Crash (SegfaultAt addr)) /\
  (forall signum addr, sigsegv_handler is_coroutine_stack_overflow signum addr <> Return).
Proof.
  intros HN Hp.
  assert (Hact : segv_action (startup_segv order sigstate_init) =
                 Some (sa_flags start_thread_segv_setup, Sigsegv_handler)).
  { rewrite SegvFacts.startup_segv_action. destruct order as [|j order]; [|reflexivity].
    exfalso. apply (Permutation_in 0 (Permutation_sym Hp)).
    apply ThreadPoolFacts.in_zseq. lia. }
  assert (Hin : forall i, existsb (Z.eqb i) order = true <-> 0 <= i <= N).
  { intros i. rewrite existsb_exists. split.
    - intros (j & Hj & Hij). apply Z.eqb_eq in Hij. subst j.
      apply (Permutation_in _ Hp), ThreadPoolFacts.in_zseq in Hj. lia.
    - intros Hi. exists i. split; [|apply Z.eqb_refl].
      apply (Permutation_in _ (Permutation_sym Hp)), ThreadPoolFacts.in_zseq. lia. }
  split; [|split; [|split]].
  - intros i Hi. unfold segv_delivery. rewrite Hact, SegvFacts.startup_segv_altstack.
    rewrite (proj2 (Hin i) Hi). reflexivity.
  - unfold segv_delivery. rewrite Hact, SegvFacts.startup_segv_altstack.
    destruct (existsb (Z.eqb (-1)) order) eqn:E; [apply Hin in E; lia|]. reflexivity.
  - intros addr. reflexivity.
  - intros signum addr. unfold sigsegv_handler.
    destruct (signum =? SIGSEGV); [destruct (is_coroutine_stack_overflow addr)|];
      discriminate.
Qed.

Lemma sigsegv_on_altstack_and_crashes_witness :
  segv_delivery (startup_segv [2; 0; 1] sigstate_init) 1 = Some (Sigsegv_handler, AlternateStack).
Proof.
  destruct (sigsegv_on_altstack_and_crashes 2 [2; 0; 1] (fun _ => false) ltac:(lia)
              (Permutation_cons_append [0; 1] 2)) as [H _].
  apply H. lia.
Defined.

(** C8 as first stated fails: once the workers have installed the handler,
    a [SIGSEGV] on the main thread is delivered to [sigsegv_handler] on the
    interrupted stack, not on an alternate one. *)
Lemma sigsegv_main_thread_not_on_altstack :
  segv_delivery (startup_segv (zseq 2) sigstate_init) (-1) =
    Some (Sigsegv_handler, InterruptedStack).
Proof. vm_compute. reflexivity. Qed.

(** C10: with [shutdown_cond_mutex] free, [shutdown_thread_pool()] locks
    it, sets [do_shutdown], signals [shutdown_cond] once and unlocks it; the
    flag is set and the signal sent while the mutex is held; the interrupt
    message, the thread count, the threads table (and so every thread's
    state) and the blocker pool are unchanged. *)
Theorem shutdown_only_sets_flag (p : linux_thread_pool_t) :
  shutdown_mutex_locked p = false ->
  exists tr,
    shutdown_thread_pool p =
      Some (tr, {| interrupt_message := interrupt_message p;
                   generic_blocker_pool := generic_blocker_pool p;
                   n_threads := n_threads p; threads := threads p;
                   do_shutdown := true; shutdown_mutex_locked := false;
                   shutdown_cond_signals := S (shutdown_cond_signals p);
                   do_set_affinity := do_set_affinity p |}) /\
    map fst tr = [MutexLock; SetDoShutdown; CondSignal; MutexUnlock] /\
    (forall o q, In (o, q) tr -> o <> MutexLock -> shutdown_mutex_locked q = true).
Proof.
  intros Hl. destruct p as [im gbp n ts ds ml cs aff]. cbn in Hl. subst ml.
  eexists. split; [reflexivity|]. split; [reflexivity|].
  intros o q Hin Hne. cbn in Hin.
  destruct Hin as [E|[E|[E|[E|[]]]]]; inversion E; subst; try reflexivity.
  exfalso. apply Hne. reflexivity.
Qed.

Lemma shutdown_only_sets_flag_witness :
  exists tr, shutdown_thread_pool (construct 1 false) =
    Some (tr, {| interrupt_message := None; generic_blocker_pool := None; n_threads := 2;
                 threads := [None; None]; do_shutdown := true;
                 shutdown_mutex_locked := false; shutdown_cond_signals := 1%nat;
                 do_set_affinity := false |}).
Proof.
  destruct (shutdown_only_sets_flag (construct 1 false) ltac:(reflexivity))
    as (tr & H & _).
  exists tr. exact H.
Defined.

End ThreadPoolClaims.

(* ========================================================================= *)
(** * Further properties of the code *)

(** ** CRC-32 is linear over xor, and detects a corrupted byte *)

Module CrcErrorFacts.
Import Crc32Spec.

Lemma step_linear (a b : Z) : step (Z.lxor a b) = Z.lxor (step a) (step b).
Proof.
  unfold step. rewrite Z.lxor_spec, Z.shiftr_lxor.
  destruct (Z.testbit a 0), (Z.testbit b 0); cbn [xorb];
    apply Z.bits_inj'; intros n Hn; rewrite !Z.lxor_spec; btauto.
Qed.

Lemma steps_linear (k : nat) : forall a b,
  steps k (Z.lxor a b) = Z.lxor (steps k a) (steps k b).
Proof.
  induction k as [|k IH]; intros a b; [reflexivity|].
  rewrite !CrcFacts.steps_S, step_linear. apply IH.
Qed.

Lemma update_linear (a b x y : Z) :
  update (Z.lxor a b) (Z.lxor x y) = Z.lxor (update a x) (update b y).
Proof.
  unfold update. rewrite <- steps_linear. f_equal.
  apply Z.bits_inj'; intros n Hn; rewrite !Z.lxor_spec; btauto.
Qed.

(** Two runs over the same bytes differ by a run over zero bytes started
    from the difference of the states. *)
Lemma fold_update_diff (ys : list Z) : forall a b,
  Z.lxor (fold_left update ys a) (fold_left update ys b) =
  fold_left update (repeat 0 (length ys)) (Z.lxor a b).
Proof.
  induction ys as [|y ys IH]; intros a b; [reflexivity|].
  cbn [fold_left length repeat]. rewrite IH. f_equal.
  rewrite <- update_linear, Z.lxor_nilpotent. reflexivity.
Qed.

Lemma lxor_bound32 (a b : Z) :
  0 <= a < 2 ^ 32 -> 0 <= b < 2 ^ 32 -> 0 <= Z.lxor a b < 2 ^ 32.
Proof.
  intros Ha Hb.
  assert (E : Z.lxor a b = Z.lxor a b mod 2 ^ 32).
  { apply Z.bits_inj'; intros n Hn.
    destruct (Z.ltb_spec n 32).
    - rewrite Z.mod_pow2_bits_low by lia. reflexivity.
    - rewrite Z.mod_pow2_bits_high by lia. rewrite Z.lxor_spec.
      rewrite <- (Z.mod_small a (2 ^ 32)), <- (Z.mod_small b (2 ^ 32)) by lia.
      rewrite !Z.mod_pow2_bits_high by lia. reflexivity. }
  rewrite E. apply Z.mod_pos_bound. lia.
Qed.

(** A non-zero 32-bit register stays non-zero: [step] is injective. *)
Lemma step_nonzero (c : Z) : 0 < c < 2 ^ 32 -> 0 < step c < 2 ^ 32.
Proof.
  intros Hc. unfold step.
  assert (Hs : 0 <= Z.shiftr c 1 < 2 ^ 31).
  { rewrite Z.shiftr_div_pow2 by lia. split; [apply Z.div_pos; lia|].
    apply Z.div_lt_upper_bound; lia. }
  destruct (Z.testbit c 0) eqn:E.
  - assert (Hb : 0 <= Z.lxor (Z.shiftr c 1) poly_reflected < 2 ^ 32)
      by (apply lxor_bound32; unfold poly_reflected; lia).
    assert (Ht : Z.testbit (Z.lxor (Z.shiftr c 1) poly_reflected) 31 = true).
    { rewrite Z.lxor_spec.
      rewrite <- (Z.mod_small (Z.shiftr c 1) (2 ^ 31)) by lia.
      rewrite Z.mod_pow2_bits_high by lia. reflexivity. }
    destruct (Z.eq_dec (Z.lxor (Z.shiftr c 1) poly_reflected) 0) as [Z0|];
      [rewrite Z0 in Ht; discriminate | lia].
  - assert (c <> 1) by (intros ->; discriminate).
    rewrite Z.shiftr_div_pow2 by lia. split.
    + apply Z.div_str_pos. lia.
    + apply Z.div_lt_upper_bound; lia.
Qed.

Lemma steps_nonzero (k : nat) : forall c, 0 < c < 2 ^ 32 -> 0 < steps k c < 2 ^ 32.
Proof.
  induction k as [|k IH]; intros c Hc; [exact Hc|].
  rewrite CrcFacts.steps_S. apply IH, step_nonzero, Hc.
Qed.

Lemma fold_zeros_nonzero (m : nat) : forall c,
  0 < c < 2 ^ 32 -> 0 < fold_left update (repeat 0 m) c < 2 ^ 32.
Proof.
  induction m as [|m IH]; intros c Hc; [exact Hc|].
  cbn [repeat fold_left]. apply IH. unfold update. rewrite Z.lxor_0_r.
  apply steps_nonzero, Hc.
Qed.

(** Replacing one byte of the message by a different byte changes the
    CRC-32. *)
Lemma crc32_byte_change (xs ys : list Z) (x y : Z) :
  0 <= x < 256 -> 0 <= y < 256 -> x <> y ->
  crc32 (xs ++ x :: ys) <> crc32 (xs ++ y :: ys).
Proof.
  intros Hx Hy Hne Heq. unfold crc32 in Heq.
  apply (f_equal (fun z => Z.lxor z 0xFFFFFFFF)) in Heq.
  rewrite !Z.lxor_assoc, !Z.lxor_nilpotent, !Z.lxor_0_r in Heq.
  rewrite !fold_left_app in Heq. cbn [fold_left] in Heq.
  set (s := fold_left update xs 0xFFFFFFFF) in Heq.
  assert (Hd := fold_update_diff ys (update s x) (update s y)).
  rewrite <- update_linear, Z.lxor_nilpotent in Hd.
  rewrite Heq, Z.lxor_nilpotent in Hd.
  assert (He : 0 < Z.lxor x y < 2 ^ 32).
  { assert (Hb : 0 <= Z.lxor x y < 2 ^ 32) by (apply lxor_bound32; lia).
    destruct (Z.eq_dec (Z.lxor x y) 0) as [Z0|]; [|lia].
    apply Z.lxor_eq in Z0. contradiction. }
  assert (Hu : 0 < update 0 (Z.lxor x y) < 2 ^ 32).
  { unfold update. rewrite Z.lxor_0_l. apply steps_nonzero, He. }
  pose proof (fold_zeros_nonzero (length ys) _ Hu). lia.
Qed.

End CrcErrorFacts.

(** ** Thread registration, shut-down and teardown *)

Module LifecycleFacts.
Import ThreadPool ThreadLifecycle.

Lemma set_threads_twice (p : linux_thread_pool_t) (a b : list (option linux_thread_t)) :
  set_threads (set_threads p a) b = set_threads p b.
Proof. reflexivity. Qed.

Lemma threads_set_threads (p : linux_thread_pool_t) (a : list (option linux_thread_t)) :
  threads (set_threads p a) = a.
Proof. reflexivity. Qed.

Lemma existsb_eqb_false (k : nat) (ks : list nat) :
  ~ In k ks -> existsb (Nat.eqb k) ks = false.
Proof.
  intros Hn. destruct (existsb (Nat.eqb k) ks) eqn:E; [|reflexivity].
  apply existsb_exists in E as (k' & Hk' & Hb). apply Nat.eqb_eq in Hb. subst k'.
  contradiction.
Qed.

Lemma nth_error_set_nth_at {A : Type} (l : list A) (i j : nat) (x : A) :
  (j < length l)%nat ->
  nth_error (Ring.set_nth l i x) j = if Nat.eqb i j then Some x else nth_error l j.
Proof.
  revert i j; induction l as [|y l IH]; intros [|i] [|j] Hj; cbn in *;
    try lia; try reflexivity.
  apply IH. lia.
Qed.

(** A fold that writes value [v] into [threads[i]] for each [i] of [order]. *)
Lemma fold_set_thread (f : Z -> linux_thread_pool_t -> linux_thread_pool_t)
    (v : option linux_thread_t) :
  (forall i p, threads (f i p) = Ring.set_nth (threads p) (Z.to_nat i) v) ->
  forall order p,
    length (threads (fold_left (fun p i => f i p) order p)) = length (threads p) /\
    forall k, (k < length (threads p))%nat ->
      nth_error (threads (fold_left (fun p i => f i p) order p)) k =
      if existsb (fun i => Nat.eqb (Z.to_nat i) k) order then Some v
      else nth_error (threads p) k.
Proof.
  intros Hf order. induction order as [|i order IH]; intros p.
  - split; [reflexivity|]. intros k _. reflexivity.
  - cbn [fold_left existsb].
    destruct (IH (f i p)) as [Hl Hn].
    rewrite Hf, RingFacts.set_nth_length in Hl, Hn.
    split; [exact Hl|]. intros k Hk. rewrite (Hn k Hk).
    rewrite nth_error_set_nth_at by exact Hk.
    destruct (Nat.eqb (Z.to_nat i) k); cbn [orb];
      destruct (existsb _ order); reflexivity.
Qed.

Lemma existsb_perm_zseq (order : list Z) (n : Z) (k : nat) :
  Permutation order (zseq n) -> (k < Z.to_nat n)%nat ->
  existsb (fun i => Nat.eqb (Z.to_nat i) k) order = true.
Proof.
  intros Hp Hk. apply existsb_exists. exists (Z.of_nat k). split.
  - apply (Permutation_in _ (Permutation_sym Hp)), ThreadPoolFacts.in_zseq. lia.
  - rewrite Nat2Z.id. apply Nat.eqb_refl.
Qed.

Lemma construct_threads_length (N : Z) (aff : bool) :
  length (threads (construct N aff)) = Z.to_nat (N + 1).
Proof. apply repeat_length. Qed.

(** After the pre-barrier phase every thread is registered. *)
Lemma startup_registered (N : Z) (aff : bool) (init : option msg) (order : list Z) (k : nat) :
  Permutation order (zseq (N + 1)) -> (k < Z.to_nat (N + 1))%nat ->
  nth_error (threads (startup_pre init order (construct N aff))) k = Some (Some fresh_thread).
Proof.
  intros Hp Hk. unfold startup_pre.
  destruct (fold_set_thread (fun i p => start_thread_pre (tdata_initial_message init i) i p)
              (Some fresh_thread)
              ltac:(intros i p; unfold start_thread_pre; destruct (tdata_initial_message init i);
                    reflexivity)
              order (construct N aff)) as [_ Hn].
  rewrite (Hn k) by (rewrite construct_threads_length; exact Hk).
  rewrite (existsb_perm_zseq order (N + 1) k Hp Hk). reflexivity.
Qed.

Lemma startup_pre_shape (init : option msg) (order : list Z) (p : linux_thread_pool_t) :
  interrupt_message (startup_pre init order p) = interrupt_message p /\
  n_threads (startup_pre init order p) = n_threads p.
Proof.
  unfold startup_pre. revert p. induction order as [|i order IH]; intros p; [split; reflexivity|].
  cbn [fold_left]. destruct (IH (start_thread_pre (tdata_initial_message init i) i p)) as [H1 H2].
  rewrite H1, H2. unfold start_thread_pre.
  destruct (tdata_initial_message init i); split; reflexivity.
Qed.

(** The shut-down loop over distinct registered threads. *)
Lemma initiate_shut_downs_spec (ks : list nat) : forall p,
  NoDup ks ->
  (forall k, In k ks -> exists t, nth_error (threads p) k = Some (Some t)) ->
  exists ts,
    initiate_shut_downs (map Z.of_nat ks) p = Some (set_threads p ts) /\
    length ts = length (threads p) /\
    forall k, nth_error ts k =
      if existsb (Nat.eqb k) ks
      then option_map (option_map initiate_shut_down) (nth_error (threads p) k)
      else nth_error (threads p) k.
Proof.
  induction ks as [|k0 ks IH]; intros p Hnd Hreg.
  - exists (threads p). split; [unfold set_threads; rewrite ThreadPoolFacts.pool_eta; reflexivity|].
    split; [reflexivity|]. intros k. reflexivity.
  - inversion Hnd as [|? ? Hnin Hnd']. subst.
    destruct (Hreg k0 (or_introl eq_refl)) as [t Ht].
    assert (Hlt : (k0 < length (threads p))%nat)
      by (apply nth_error_Some; rewrite Ht; discriminate).
    set (p1 := set_threads p (Ring.set_nth (threads p) k0 (Some (initiate_shut_down t)))).
    assert (Hn1 : forall k, nth_error (threads p1) k =
                  if Nat.eqb k k0 then Some (Some (initiate_shut_down t))
                  else nth_error (threads p) k)
      by (intros k; unfold p1; rewrite threads_set_threads;
          apply RingFacts.nth_error_set_nth, Hlt).
    destruct (IH p1 Hnd') as (ts & Hrun & Hlen & Hts).
    { intros k Hk. rewrite Hn1. destruct (Nat.eqb_spec k k0) as [->|]; [contradiction|].
      apply Hreg. right. exact Hk. }
    exists ts. split.
    + cbn [map initiate_shut_downs]. rewrite Nat2Z.id, Ht. fold p1. rewrite Hrun.
      unfold p1. reflexivity.
    + split.
      * rewrite Hlen. unfold p1. rewrite threads_set_threads. apply RingFacts.set_nth_length.
      * intros k. rewrite Hts, Hn1. cbn [existsb].
        destruct (Nat.eqb_spec k k0) as [->|Hne].
        -- rewrite ?Nat.eqb_refl, (existsb_eqb_false k0 ks Hnin), Ht. reflexivity.
        -- reflexivity.
Qed.

Lemma teardown_pool (init : option msg) (order : list Z) : forall p,
  generic_blocker_pool (teardown_post init order p) =
  if existsb (fun i => i =? 0) order
  then match init with Some _ => None | None => generic_blocker_pool p end
  else generic_blocker_pool p.
Proof.
  unfold teardown_post.
  induction order as [|i order IH]; intros p; [reflexivity|].
  cbn [fold_left existsb]. rewrite IH.
  unfold start_thread_post, tdata_initial_message.
  destruct (Z.eqb_spec i 0); destruct init; cbn [orb];
    destruct (existsb (fun i => i =? 0) order); reflexivity.
Qed.

End LifecycleFacts.

Module AlrmFacts.
Import ThreadPool AlrmHandler.

Definition posted (t : linux_thread_t) (m : msg) : linux_thread_t :=
  {| external_messages := external_messages t ++ [m];
     thread_do_shutdown := thread_do_shutdown t; shutdown_notified := shutdown_notified t |}.

Lemma alrm_posts_spec (f : Z -> msg) (ks : list nat) : forall p,
  NoDup ks ->
  (forall k, In k ks -> exists t, nth_error (threads p) k = Some (Some t)) ->
  exists ts,
    alrm_posts f (map Z.of_nat ks) p = Some (set_threads p ts) /\
    length ts = length (threads p) /\
    forall k, nth_error ts k =
      if existsb (Nat.eqb k) ks
      then option_map (option_map (fun t => posted t (f (Z.of_nat k)))) (nth_error (threads p) k)
      else nth_error (threads p) k.
Proof.
  induction ks as [|k0 ks IH]; intros p Hnd Hreg.
  - exists (threads p). split; [unfold set_threads; rewrite ThreadPoolFacts.pool_eta; reflexivity|].
    split; [reflexivity|]. intros k. reflexivity.
  - inversion Hnd as [|? ? Hnin Hnd']. subst.
    destruct (Hreg k0 (or_introl eq_refl)) as [t Ht].
    assert (Hlt : (k0 < length (threads p))%nat)
      by (apply nth_error_Some; rewrite Ht; discriminate).
    set (p1 := set_threads p (Ring.set_nth (threads p) k0 (Some (posted t (f (Z.of_nat k0)))))).
    assert (Hn1 : forall k, nth_error (threads p1) k =
                  if Nat.eqb k k0 then Some (Some (posted t (f (Z.of_nat k0))))
                  else nth_error (threads p) k)
      by (intros k; unfold p1; rewrite LifecycleFacts.threads_set_threads;
          apply RingFacts.nth_error_set_nth, Hlt).
    destruct (IH p1 Hnd') as (ts & Hrun & Hlen & Hts).
    { intros k Hk. rewrite Hn1. destruct (Nat.eqb_spec k k0) as [->|]; [contradiction|].
      apply Hreg. right. exact Hk. }
    exists ts. split.
    + cbn [map alrm_posts]. unfold insert_external_message. rewrite Nat2Z.id, Ht.
      fold (posted t (f (Z.of_nat k0))). fold p1. rewrite Hrun. reflexivity.
    + split.
      * rewrite Hlen. unfold p1. rewrite LifecycleFacts.threads_set_threads.
        apply RingFacts.set_nth_length.
      * intros k. rewrite Hts, Hn1. cbn [existsb].
        destruct (Nat.eqb_spec k k0) as [->|Hne].
        -- rewrite ?Nat.eqb_refl, (LifecycleFacts.existsb_eqb_false k0 ks Hnin), Ht.
           reflexivity.
        -- reflexivity.
Qed.

End AlrmFacts.

(** ** Properties of the record code *)

Module RecordExtras.
Import Metablock Layout Examples.

(** A valid record whose payload has any one byte replaced by a different
    byte, everything else kept, fails [check_crc()]. *)
Theorem check_crc_detects_byte_change (r : crc_metablock_t) (xs ys : list Byte.byte)
    (b b' : Byte.byte) :
  metablock r = xs ++ b :: ys -> b <> b' -> check_crc r = true ->
  check_crc {| _crc := _crc r; version := version r; metablock := xs ++ b' :: ys |} = false.
Proof.
  intros Hm Hne Hv. unfold check_crc in *. apply Z.eqb_eq in Hv. apply Z.eqb_neq.
  rewrite (MetablockFacts.crc_eq_crc32 {| _crc := _crc r; version := version r;
                                          metablock := xs ++ b' :: ys |}).
  rewrite MetablockFacts.crc_eq_crc32, Hm in Hv. cbn [metablock]. rewrite Hv.
  rewrite !map_app. cbn [map].
  assert (Hbv : byte_val b <> byte_val b').
  { unfold byte_val. intros E. apply Hne. apply N2Z.inj in E.
    apply (f_equal Byte.of_N) in E. rewrite !Byte.of_to_N in E.
    injection E as E. exact E. }
  unfold byte_val in *.
  pose proof (Byte.to_N_bounded b). pose proof (Byte.to_N_bounded b').
  apply CrcErrorFacts.crc32_byte_change; [lia | lia | exact Hbv].
Qed.

Lemma check_crc_detects_byte_change_witness :
  check_crc {| _crc := _crc recA; version := version recA; metablock := [] ++ [Byte.x42] |}
  = false.
Proof.
  apply (check_crc_detects_byte_change recA [] [] Byte.x41 Byte.x42).
  - vm_compute. reflexivity.
  - discriminate.
  - vm_compute. reflexivity.
Defined.

End RecordExtras.

(** ** Properties of the thread-pool code *)

Module ThreadPoolExtras.
Import ThreadPool ThreadLifecycle.

(** Once every thread has run its start-up code up to the first barrier,
    in any order, every [threads[i]] holds a fresh [linux_thread_t]; so a
    message stored with [set_interrupt_message] (which returns the previous,
    [NULL], message) is posted by the next [SIGINT]/[SIGTERM] to thread
    [N_workers], the last one, and the stored pointer is [NULL] again. *)
Theorem startup_registers_every_thread (N : Z) (aff : bool) (init : option msg)
    (order : list Z) (m : msg) :
  1 <= N -> Permutation order (zseq (N + 1)) ->
  (forall k, (k < Z.to_nat (N + 1))%nat ->
     nth_error (threads (startup_pre init order (construct N aff))) k =
       Some (Some fresh_thread)) /\
  fst (set_interrupt_message (Some m) (startup_pre init order (construct N aff))) = None /\
  exists p',
    interrupt_handler (snd (set_interrupt_message (Some m)
                              (startup_pre init order (construct N aff)))) = Some p' /\
    interrupt_message p' = None /\
    nth_error (threads p') (Z.to_nat N) =
      Some (Some {| external_messages := [m]; thread_do_shutdown := false;
                    shutdown_notified := 0 |}).
Proof.
  intros HN Hp.
  assert (Hreg := fun k => LifecycleFacts.startup_registered N aff init order k Hp).
  destruct (LifecycleFacts.startup_pre_shape init order (construct N aff)) as [Him Hn].
  split; [exact Hreg|].
  split; [cbn [fst set_interrupt_message]; rewrite Him; reflexivity|].
  set (p := startup_pre init order (construct N aff)) in *.
  set (p1 := snd (set_interrupt_message (Some m) p)).
  assert (Hu : Z.to_nat (utility_thread p1) = Z.to_nat N).
  { unfold utility_thread, p1. cbn [snd set_interrupt_message n_threads].
    rewrite Hn. cbn [construct n_threads]. f_equal. lia. }
  assert (Ht : nth_error (threads p1) (Z.to_nat (utility_thread p1)) = Some (Some fresh_thread)).
  { rewrite Hu. apply Hreg. lia. }
  rewrite (ThreadPoolFacts.interrupt_handler_post p1 m fresh_thread eq_refl Ht).
  eexists. split; [reflexivity|]. cbn [interrupt_message threads]. split; [reflexivity|].
  rewrite Hu, RingFacts.nth_error_set_nth.
  - rewrite Nat.eqb_refl. reflexivity.
  - apply nth_error_Some. unfold p1. cbn [snd set_interrupt_message threads].
    rewrite Hreg by lia. discriminate.
Qed.

Lemma startup_registers_every_thread_witness :
  fst (set_interrupt_message (Some 9%nat) (startup_pre None [1; 0; 2] (construct 2 true)))
  = None.
Proof.
  destruct (startup_registers_every_thread 2 true None [1; 0; 2] 9%nat ltac:(lia)
              ltac:(vm_compute; apply perm_swap)) as (_ & H & _).
  exact H.
Defined.

(** [run_thread_pool]'s shut-down loop over threads [0 .. n_threads - 1],
    all registered, calls [initiate_shut_down] on each exactly once: every
    thread then answers [should_shut_down()] with true (a freshly built one
    answers false), has its notify event written once more, keeps its
    pending messages; nothing else in the pool changes. *)
Theorem shut_down_loop_stops_every_thread (p : linux_thread_pool_t) :
  length (threads p) = Z.to_nat (n_threads p) ->
  (forall k, (k < length (threads p))%nat ->
             exists t, nth_error (threads p) k = Some (Some t)) ->
  should_shut_down fresh_thread = false /\
  exists p',
    initiate_shut_downs (zseq (n_threads p)) p = Some p' /\
    p' = set_threads p (map (option_map initiate_shut_down) (threads p)) /\
    (forall k t, nth_error (threads p') k = Some (Some t) -> should_shut_down t = true).
Proof.
  intros Hlen Hreg. split; [reflexivity|].
  destruct (LifecycleFacts.initiate_shut_downs_spec (seq 0 (Z.to_nat (n_threads p))) p
              (seq_NoDup _ _)) as (ts & Hrun & Hl & Hts).
  { intros k Hk. apply in_seq in Hk. apply Hreg. lia. }
  assert (Hmap : ts = map (option_map initiate_shut_down) (threads p)).
  { apply nth_error_ext. intros k. rewrite Hts, nth_error_map.
    destruct (existsb (Nat.eqb k) (seq 0 (Z.to_nat (n_threads p)))) eqn:E; [reflexivity|].
    destruct (nth_error (threads p) k) eqn:Ek; [|reflexivity].
    exfalso. assert (Hk : (k < length (threads p))%nat)
      by (apply nth_error_Some; rewrite Ek; discriminate).
    assert (Hin : existsb (Nat.eqb k) (seq 0 (Z.to_nat (n_threads p))) = true).
    { apply existsb_exists. exists k. split; [apply in_seq; lia | apply Nat.eqb_refl]. }
    congruence. }
  exists (set_threads p ts). split; [exact Hrun|].
  split; [rewrite Hmap; reflexivity|].
  rewrite LifecycleFacts.threads_set_threads.
  intros k t Hk. rewrite Hmap, nth_error_map in Hk.
  destruct (nth_error (threads p) k) as [[t0|]|]; cbn in Hk; inversion Hk. reflexivity.
Qed.

Lemma shut_down_loop_stops_every_thread_witness :
  exists p', initiate_shut_downs (zseq 2) (startup_pre None [0; 1] (construct 1 false)) = Some p'.
Proof.
  assert (Hl : length (threads (startup_pre None [0; 1] (construct 1 false))) = 2%nat)
    by (vm_compute; reflexivity).
  destruct (shut_down_loop_stops_every_thread (startup_pre None [0; 1] (construct 1 false))
              ltac:(vm_compute; reflexivity)
              ltac:(intros k Hk; rewrite Hl in Hk;
                    destruct k as [|[|k]]; [eexists; vm_compute; reflexivity
                                           | eexists; vm_compute; reflexivity | lia]))
    as (_ & p' & H & _).
  exists p'. exact H.
Defined.

(** After every thread has run [start_thread] to the end, in any order for
    the part before the first barrier and any order for the part after the
    second one, the generic blocker pool has been deleted (or was never
    built) and every [threads[i]] has been reset to [NULL]. *)
Theorem teardown_releases_pool_and_slots (N : Z) (aff : bool) (init : option msg)
    (order1 order2 : list Z) :
  0 <= N -> Permutation order1 (zseq (N + 1)) -> Permutation order2 (zseq (N + 1)) ->
  generic_blocker_pool
    (teardown_post init order2 (startup_pre init order1 (construct N aff))) = None /\
  threads (teardown_post init order2 (startup_pre init order1 (construct N aff))) =
    repeat None (Z.to_nat (N + 1)).
Proof.
  intros HN Hp1 Hp2.
  assert (Hz : forall order, Permutation order (zseq (N + 1)) ->
                 existsb (fun i => i =? 0) order = true).
  { intros order Hp. apply existsb_exists. exists 0. split; [|apply Z.eqb_refl].
    apply (Permutation_in _ (Permutation_sym Hp)), ThreadPoolFacts.in_zseq. lia. }
  split.
  - rewrite LifecycleFacts.teardown_pool, (Hz order2 Hp2).
    destruct init as [m|]; [reflexivity|].
    rewrite ThreadPoolFacts.startup_pre_pool, (Hz order1 Hp1). reflexivity.
  - assert (Hpre := LifecycleFacts.fold_set_thread
                      (fun i p => start_thread_pre (tdata_initial_message init i) i p)
                      (Some fresh_thread)
                      ltac:(intros i p; unfold start_thread_pre;
                            destruct (tdata_initial_message init i); reflexivity)
                      order1 (construct N aff)).
    assert (Hpost := LifecycleFacts.fold_set_thread
                       (fun i p => start_thread_post
                                     (match tdata_initial_message init i with
                                      | Some _ => true | None => false end) i p)
                       None
                       ltac:(intros i p; unfold start_thread_post;
                             destruct (match tdata_initial_message init i with
                                       | Some _ => true | None => false end); reflexivity)
                       order2 (startup_pre init order1 (construct N aff))).
    destruct Hpre as [Hl1 _]. destruct Hpost as [Hl2 Hn2].
    fold (startup_pre init order1 (construct N aff)) in Hl1.
    fold (startup_pre init order1 (construct N aff)) in Hl2, Hn2.
    fold (teardown_post init order2 (startup_pre init order1 (construct N aff))) in Hl2, Hn2.
    rewrite LifecycleFacts.construct_threads_length in Hl1.
    apply nth_error_ext. intros k.
    destruct (Nat.lt_ge_cases k (Z.to_nat (N + 1))) as [Hk|Hk].
    + rewrite Hn2 by lia.
      rewrite (LifecycleFacts.existsb_perm_zseq order2 (N + 1) k Hp2 Hk).
      rewrite nth_error_repeat by exact Hk. reflexivity.
    + rewrite (proj2 (nth_error_None _ _)) by lia.
      rewrite (proj2 (nth_error_None _ _)) by (rewrite repeat_length; lia).
      reflexivity.
Qed.

Lemma teardown_releases_pool_and_slots_witness :
  threads (teardown_post (Some 7%nat) [2; 0; 1] (startup_pre (Some 7%nat) [1; 2; 0]
                                                   (construct 2 true))) = [None; None; None].
Proof.
  destruct (teardown_releases_pool_and_slots 2 true (Some 7%nat) [1; 2; 0] [2; 0; 1]
              ltac:(lia)
              (Permutation_sym (Permutation_cons_append [1; 2] 0))
              (Permutation_cons_append [0; 1] 2))
    as [_ H].
  exact H.
Defined.

(** [alrm_handler] on a pool whose [n_threads] slots all hold a thread
    appends exactly one new message, the one allocated for it, to every
    thread's external queue; the threads' shut-down state, the interrupt
    message and [n_threads] are left as they are. *)
Theorem alrm_handler_posts_to_every_thread (alrm_message : Z -> msg)
    (p : linux_thread_pool_t) :
  length (threads p) = Z.to_nat (n_threads p) ->
  (forall k, (k < length (threads p))%nat ->
             exists t, nth_error (threads p) k = Some (Some t)) ->
  exists p',
    AlrmHandler.alrm_handler alrm_message p = Some p' /\
    interrupt_message p' = interrupt_message p /\ n_threads p' = n_threads p /\
    length (threads p') = length (threads p) /\
    forall k t, nth_error (threads p) k = Some (Some t) ->
      nth_error (threads p') k =
        Some (Some {| external_messages := external_messages t ++ [alrm_message (Z.of_nat k)];
                      thread_do_shutdown := thread_do_shutdown t;
                      shutdown_notified := shutdown_notified t |}).
Proof.
  intros Hlen Hreg.
  destruct (AlrmFacts.alrm_posts_spec alrm_message (seq 0 (Z.to_nat (n_threads p))) p
              (seq_NoDup _ _)) as (ts & Hrun & Hl & Hts).
  { intros k Hk. apply in_seq in Hk. apply Hreg. lia. }
  exists (set_threads p ts). split; [exact Hrun|].
  rewrite LifecycleFacts.threads_set_threads.
  split; [reflexivity|]. split; [reflexivity|]. split; [exact Hl|].
  intros k t Hk. rewrite Hts, Hk.
  assert (Hin : existsb (Nat.eqb k) (seq 0 (Z.to_nat (n_threads p))) = true).
  { apply existsb_exists. exists k. split; [|apply Nat.eqb_refl].
    apply in_seq. split; [lia|]. rewrite <- Hlen. apply nth_error_Some. rewrite Hk.
    discriminate. }
  rewrite Hin. reflexivity.
Qed.

Lemma alrm_handler_posts_to_every_thread_witness :
  exists p', AlrmHandler.alrm_handler (fun i => Z.to_nat (100 + i))
               (startup_pre None [0; 1] (construct 1 false)) = Some p'.
Proof.
  assert (Hl : length (threads (startup_pre None [0; 1] (construct 1 false))) = 2%nat)
    by (vm_compute; reflexivity).
  destruct (alrm_handler_posts_to_every_thread (fun i => Z.to_nat (100 + i))
              (startup_pre None [0; 1] (construct 1 false))
              ltac:(vm_compute; reflexivity)
              ltac:(intros k Hk; rewrite Hl in Hk;
                    destruct k as [|[|k]]; [eexists; vm_compute; reflexivity
                                           | eexists; vm_compute; reflexivity | lia]))
    as (p' & H & _).
  exists p'. exact H.
Defined.

End ThreadPoolExtras.
